(** * A length-prefixed TCP chat: client.py and server.py

    Shallow embedding of the two scripts of the repository:

    - [Py]: the Python values and builtins the scripts use ([str], [bytes],
      [str.encode], [bytes.decode], [str()], [int()], sequence repetition,
      the exception classes the [except] clauses test for);
    - [World]: a connected socket seen from one endpoint, as a script of
      what the network delivers, with the calls made on it and the lines
      printed recorded in order;
    - [Client]: [send] and the interactive loop of client.py;
    - [Server]: [handle_client] of server.py;
    - [Runtime]: [handle_client] again, with a console that cannot print
      every message and buffers that cannot have every size;
    - [Listener]: [start] and the top level of server.py.

    Console output is kept as a structured line per [print] statement; the
    formatting of the lines is not modelled.  In [Client] and [Server]
    [print] never raises. *)

From Stdlib Require Import String Ascii.
From Stdlib Require Import ZArith List Bool Lia.
Import ListNotations.
Local Open Scope Z_scope.

(* ================================================================== *)
(** * Python values and builtins *)
(* ================================================================== *)

Module Py.

(** [bytes]: a sequence of integers in [0, 256). *)
Definition bytes := list Z.
(** [str]: a sequence of Unicode code points in [0, 0x110000). *)
Definition str := list Z.

Definition len {A} (l : list A) : Z := Z.of_nat (length l).

(** A literal of the source, character by character. *)
Definition lit (s : String.string) : str :=
  map (fun a => Z.of_N (N_of_ascii a)) (String.list_ascii_of_string s).
Arguments lit s%_string.

(** Truth value of a sequence: empty is false. *)
Definition truthy {A} (l : list A) : bool :=
  match l with [] => false | _ :: _ => true end.

Fixpoint str_eqb (a b : list Z) : bool :=
  match a, b with
  | [], [] => true
  | x :: a', y :: b' => (x =? y) && str_eqb a' b'
  | _, _ => false
  end.

(** The exception classes that can reach an [except] clause of the scripts. *)
Inductive exn : Type :=
| ConnectionResetError      (* OSError > ConnectionError > ... *)
| BrokenPipeError           (* OSError > ConnectionError > ... *)
| OSError                   (* any other OSError, e.g. a timeout or an abort *)
| ValueError
| UnicodeEncodeError        (* ValueError > UnicodeError > ... *)
| UnicodeDecodeError        (* ValueError > UnicodeError > ... *)
| OverflowError             (* ArithmeticError > ... *)
| MemoryError
| EOFError
| KeyboardInterrupt.        (* BaseException only *)

Definition is_ConnectionResetError (e : exn) : bool :=
  match e with ConnectionResetError => true | _ => false end.
Definition is_BrokenPipeError (e : exn) : bool :=
  match e with BrokenPipeError => true | _ => false end.
Definition is_ValueError (e : exn) : bool :=
  match e with
  | ValueError | UnicodeEncodeError | UnicodeDecodeError => true
  | _ => false
  end.
Definition is_Exception (e : exn) : bool :=
  match e with KeyboardInterrupt => false | _ => true end.

Inductive result (A : Type) : Type :=
| Ok (a : A)
| Raise (e : exn).
Arguments Ok {A} a.
Arguments Raise {A} e.

(** ** UTF-8 *)

Inductive encoding := utf_8.

(** [str.encode('utf-8')], strict: a surrogate code point raises
    UnicodeEncodeError.  A value that is no code point at all cannot be in a
    [str]; the model rejects it the same way. *)
Definition utf8_char (c : Z) : option bytes :=
  if c <? 0 then None
  else if c <? 128 then Some [c]
  else if c <? 2048 then
    Some [Z.lor 192 (Z.shiftr c 6); Z.lor 128 (Z.land c 63)]
  else if c <? 65536 then
    if (55296 <=? c) && (c <=? 57343) then None
    else Some [Z.lor 224 (Z.shiftr c 12);
               Z.lor 128 (Z.land (Z.shiftr c 6) 63);
               Z.lor 128 (Z.land c 63)]
  else if c <? 1114112 then
    Some [Z.lor 240 (Z.shiftr c 18);
          Z.lor 128 (Z.land (Z.shiftr c 12) 63);
          Z.lor 128 (Z.land (Z.shiftr c 6) 63);
          Z.lor 128 (Z.land c 63)]
  else None.

Fixpoint utf8_encode (s : str) : option bytes :=
  match s with
  | [] => Some []
  | c :: s' =>
      match utf8_char c, utf8_encode s' with
      | Some b, Some bs => Some (b ++ bs)
      | _, _ => None
      end
  end.

Definition str_encode (s : str) (enc : encoding) : result bytes :=
  match enc with
  | utf_8 =>
      match utf8_encode s with
      | Some b => Ok b
      | None => Raise UnicodeEncodeError
      end
  end.

Definition is_cont (b : Z) : bool := (128 <=? b) && (b <=? 191).

(** [bytes.decode('utf-8')], strict: overlong forms, surrogates, code points
    above 0x10FFFF, stray continuation bytes and truncated sequences are
    refused. *)
Fixpoint utf8_decode (bs : bytes) : option str :=
  match bs with
  | [] => Some []
  | b1 :: t1 =>
      if (0 <=? b1) && (b1 <? 128) then option_map (cons b1) (utf8_decode t1)
      else if (194 <=? b1) && (b1 <=? 223) then
        match t1 with
        | b2 :: t2 =>
            if is_cont b2 then
              option_map (cons (Z.lor (Z.shiftl (Z.land b1 31) 6) (Z.land b2 63)))
                         (utf8_decode t2)
            else None
        | _ => None
        end
      else if (224 <=? b1) && (b1 <=? 239) then
        match t1 with
        | b2 :: b3 :: t3 =>
            let c := Z.lor (Z.shiftl (Z.land b1 15) 12)
                       (Z.lor (Z.shiftl (Z.land b2 63) 6) (Z.land b3 63)) in
            if is_cont b2 && is_cont b3 && (2048 <=? c)
               && negb ((55296 <=? c) && (c <=? 57343))
            then option_map (cons c) (utf8_decode t3)
            else None
        | _ => None
        end
      else if (240 <=? b1) && (b1 <=? 244) then
        match t1 with
        | b2 :: b3 :: b4 :: t4 =>
            let c := Z.lor (Z.shiftl (Z.land b1 7) 18)
                       (Z.lor (Z.shiftl (Z.land b2 63) 12)
                          (Z.lor (Z.shiftl (Z.land b3 63) 6) (Z.land b4 63))) in
            if is_cont b2 && is_cont b3 && is_cont b4
               && (65536 <=? c) && (c <? 1114112)
            then option_map (cons c) (utf8_decode t4)
            else None
        | _ => None
        end
      else None
  end.

Definition bytes_decode (b : bytes) (enc : encoding) : result str :=
  match enc with
  | utf_8 =>
      match utf8_decode b with
      | Some s => Ok s
      | None => Raise UnicodeDecodeError
      end
  end.

(** ** [str(n)] for an [int] *)

(** Decimal digits of [n >= 0], least significant first, as ASCII codes. *)
Fixpoint digits_le (fuel : nat) (n : Z) : list Z :=
  match fuel with
  | O => []
  | S f => (48 + n mod 10) :: (if n / 10 =? 0 then [] else digits_le f (n / 10))
  end.

(** A number below [2 ^ k] has at most [k] decimal digits, so the binary
    size of [n] is fuel enough. *)
Definition str_nat (n : Z) : str :=
  rev (digits_le (S (Z.to_nat (Z.log2 n))) n).

Definition str_int (n : Z) : str :=
  if n <? 0 then 45 :: str_nat (- n) else str_nat n.

(** ** Sequence repetition: [b * k] is empty for [k <= 0]
    ([Z.to_nat] sends a negative count to 0, as Python does). *)
Definition bytes_mul (b : bytes) (k : Z) : bytes :=
  concat (repeat b (Z.to_nat k)).

(** ** [int(s)] for a [str], base 10 (CPython's PyLong_FromUnicodeObject) *)

(** Py_ISSPACE: what PyLong_FromString skips around the number. *)
Definition Py_ISSPACE (c : Z) : bool :=
  (c =? 32) || ((9 <=? c) && (c <=? 13)).

(** Py_UNICODE_ISSPACE, for the code points the transformation asks about
    (127 and above). *)
Definition Py_UNICODE_ISSPACE (c : Z) : bool :=
  (c =? 133) || (c =? 160) || (c =? 5760)
  || ((8192 <=? c) && (c <=? 8202))
  || (c =? 8232) || (c =? 8233) || (c =? 8239) || (c =? 8287) || (c =? 12288).

(** The zero of every run of ten decimal digits (category Nd) of
    Unicode 14, the table of CPython 3.11. *)
Definition decimal_zeros : list Z :=
  [48; 1632; 1776; 1984; 2406; 2534; 2662; 2790; 2918; 3046; 3174; 3302;
   3430; 3558; 3664; 3792; 3872; 4160; 4240; 6112; 6160; 6470; 6608; 6784;
   6800; 6992; 7088; 7232; 7248; 42528; 43216; 43264; 43472; 43504; 43600;
   44016; 65296; 66720; 68912; 69734; 69872; 69942; 70096; 70384; 70736;
   70864; 71248; 71360; 71472; 71904; 72016; 72784; 73040; 73120; 92768;
   92864; 93008; 120782; 120792; 120802; 120812; 120822; 123200; 123632;
   125264; 130032].

Definition Py_UNICODE_TODECIMAL (c : Z) : option Z :=
  match find (fun z => (z <=? c) && (c <=? z + 9)) decimal_zeros with
  | Some z => Some (c - z)
  | None => None
  end.

(** _PyUnicode_TransformDecimalAndSpaceToASCII.  CPython writes a '?' and
    stops at a character that is neither; the parse of such a buffer always
    fails, which [None] stands for. *)
Fixpoint transform_decimal_and_space (s : str) : option (list Z) :=
  match s with
  | [] => Some []
  | ch :: s' =>
      if ch <? 127 then option_map (cons ch) (transform_decimal_and_space s')
      else if Py_UNICODE_ISSPACE ch then
        option_map (cons 32) (transform_decimal_and_space s')
      else
        match Py_UNICODE_TODECIMAL ch with
        | Some d => option_map (cons (48 + d)) (transform_decimal_and_space s')
        | None => None
        end
  end.

Fixpoint skip_space (s : list Z) : list Z :=
  match s with
  | c :: s' => if Py_ISSPACE c then skip_space s' else s
  | [] => []
  end.

Definition is_digit (c : Z) : bool := (48 <=? c) && (c <=? 57).

(** The digit loop of PyLong_FromString after a first digit: single
    underscores between digits, none doubled, none trailing.  Returns the
    value and the unread rest. *)
Fixpoint scan_digits (prev_underscore : bool) (acc : Z) (s : list Z)
  : option (Z * list Z) :=
  match s with
  | c :: s' =>
      if is_digit c then scan_digits false (10 * acc + (c - 48)) s'
      else if c =? 95 then
        if prev_underscore then None else scan_digits true acc s'
      else if prev_underscore then None else Some (acc, s)
  | [] => if prev_underscore then None else Some (acc, [])
  end.

Definition PyLong_FromString (s : list Z) : option Z :=
  let s1 := skip_space s in
  let '(sign, s2) :=
    match s1 with
    | c :: r => if c =? 43 then (1, r) else if c =? 45 then (-1, r) else (1, s1)
    | [] => (1, s1)
    end in
  match s2 with
  | c :: r =>
      if is_digit c then
        match scan_digits false (c - 48) r with
        | Some (v, rest) =>
            match skip_space rest with
            | [] => Some (sign * v)
            | _ :: _ => None
            end
        | None => None
        end
      else None
  | [] => None
  end.

(** [int(s)].  (The 4300-digit limit of CPython 3.11 is out of reach of the
    strings of this program: a header has at most 64 characters.) *)
Definition int (s : str) : result Z :=
  match transform_decimal_and_space s with
  | Some a =>
      match PyLong_FromString a with
      | Some n => Ok n
      | None => Raise ValueError
      end
  | None => Raise ValueError
  end.

End Py.

(* ================================================================== *)
(** * The world of one script: its socket and its console *)
(* ================================================================== *)

Module World.
Import Py.

(** What a socket call can raise besides its argument checks. *)
Inductive fault := Reset | Pipe | OtherOS | NoMemory.

Definition exn_of_fault (f : fault) : exn :=
  match f with
  | Reset => ConnectionResetError
  | Pipe => BrokenPipeError
  | OtherOS => OSError
  | NoMemory => MemoryError
  end.

(** What the network has in store for the successive [recv] calls: a chunk
    of bytes that has arrived, or a failure.  When nothing is left the peer
    has shut down and [recv] returns [b''].  (A peer that stays silent for
    ever, so that a read never returns, is outside the model.) *)
Inductive recv_event :=
| Data (b : bytes)
| RecvFault (f : fault).

(** The fate of the successive [send] calls; when nothing is left, sends
    succeed.  An accepted send takes all the bytes (both scripts discard
    the count [send] returns). *)
Inductive send_event :=
| Accepted
| SendFault (f : fault).

Definition address := (str * Z)%type.

(** One constructor per [print] statement of the two scripts. *)
Inductive line :=
(* server.py, handle_client *)
| NewConnection (addr : address)
| Received (addr : address) (msg : str)
| ErrorReset (addr : address)
| ErrorInvalidHeader (addr : address)
| UnexpectedError (addr : address) (e : exn)
| ClosingFor (addr : address)
(* client.py *)
| Banner
| ServerSaid (server_response : str)
| ErrorLost
| Closing.

(** What the script did, in order. *)
Inductive event :=
| ERecv (bufsize : Z) (r : result bytes)
| ESend (data : bytes) (r : result Z)
| EClose
| EInput (r : result str)
| EPrint (l : line).

Record world := mkWorld {
  inbox : list recv_event;
  outcomes : list send_event;
  trace : list event
}.

Definition log (e : event) (w : world) : world :=
  mkWorld (inbox w) (outcomes w) (trace w ++ [e]).

(** Computations of a script: state and exceptions. *)
Definition M (A : Type) : Type := world -> result A * world.

Definition ret {A} (a : A) : M A := fun w => (Ok a, w).
Definition raise {A} (e : exn) : M A := fun w => (Raise e, w).
Definition bind {A B} (m : M A) (k : A -> M B) : M B :=
  fun w =>
    match m w with
    | (Ok a, w') => k a w'
    | (Raise e, w') => (Raise e, w')
    end.
Definition lift {A} (r : result A) : M A := fun w => (r, w).

(** [try: m  except ...: h e] where [h] re-raises what no clause matches. *)
Definition try_except {A} (m : M A) (h : exn -> M A) : M A :=
  fun w =>
    match m w with
    | (Ok a, w') => (Ok a, w')
    | (Raise e, w') => h e w'
    end.

Declare Scope py_scope.
Delimit Scope py_scope with py.
Notation "x <- m ;; k" := (bind m (fun x => k))
  (at level 61, m at next level, right associativity) : py_scope.
Notation "m ;; k" := (bind m (fun _ => k))
  (at level 61, right associativity) : py_scope.

Definition PY_SSIZE_T_MAX : Z := 2 ^ 63 - 1.

(** [sock.recv(bufsize)].  The argument is converted to a C ssize_t
    (OverflowError outside its range) and refused when negative
    (ValueError: negative buffersize in recv); then up to [bufsize] bytes
    of the first chunk are returned, whatever its size: one call, no
    waiting for more.  A failure to allocate the buffer is the fault
    [NoMemory] of the world. *)
Definition deliver (bufsize : Z) (i : list recv_event)
  : result bytes * list recv_event :=
  if (bufsize <? - PY_SSIZE_T_MAX - 1) || (PY_SSIZE_T_MAX <? bufsize)
  then (Raise OverflowError, i)
  else if bufsize <? 0 then (Raise ValueError, i)
  else
    match i with
    | [] => (Ok [], i)
    | Data b :: rest =>
        let k := Z.to_nat bufsize in
        (Ok (firstn k b),
         match skipn k b with
         | [] => rest
         | _ :: _ => Data (skipn k b) :: rest
         end)
    | RecvFault f :: rest => (Raise (exn_of_fault f), rest)
    end.

Definition recv (bufsize : Z) : M bytes :=
  fun w =>
    let '(r, i) := deliver bufsize (inbox w) in
    (r, mkWorld i (outcomes w) (trace w ++ [ERecv bufsize r])).

Definition accept (data : bytes) (o : list send_event)
  : result Z * list send_event :=
  match o with
  | [] => (Ok (len data), o)
  | Accepted :: rest => (Ok (len data), rest)
  | SendFault f :: rest => (Raise (exn_of_fault f), rest)
  end.

Definition send (data : bytes) : M Z :=
  fun w =>
    let '(r, o) := accept data (outcomes w) in
    (r, mkWorld (inbox w) o (trace w ++ [ESend data r])).

Definition close : M unit := fun w => (Ok tt, log EClose w).

Definition print (l : line) : M unit := fun w => (Ok tt, log (EPrint l) w).

(** Bytes and events still to be delivered: what bounds a receive loop. *)
Fixpoint pending (i : list recv_event) : nat :=
  match i with
  | [] => O
  | Data b :: rest => S (length b + pending rest)
  | RecvFault _ :: rest => S (pending rest)
  end.

End World.

(* ================================================================== *)
(** * client.py *)
(* ================================================================== *)

Module Client.
Import Py World.
Local Open Scope py_scope.

Definition HEADER : Z := 64.
Definition PORT : Z := 5050.
Definition FORMAT : encoding := utf_8.
Definition MSG_DISCONNECT : str := lit "!Disconnect"%string.

(** [send(msg)], client.py lines 38-69: True on success, False when the
    connection was lost; any other exception leaves the function. *)
Definition send (msg : str) : M bool :=
  try_except
    (message <- lift (str_encode msg FORMAT) ;;
     let msg_length := len message in
     send_length <- lift (str_encode (str_int msg_length) FORMAT) ;;
     let send_length :=
       send_length ++ bytes_mul [32] (HEADER - len send_length) in
     World.send send_length ;;
     World.send message ;;
     response <- recv 2048 ;;
     server_response <- lift (bytes_decode response FORMAT) ;;
     print (ServerSaid server_response) ;;
     ret true)
    (fun e =>
       if is_ConnectionResetError e || is_BrokenPipeError e
       then print ErrorLost ;; ret false
       else raise e).

(** What [input("> ")] gives at each call: a line, or Ctrl-C.  At the end
    of the operator's input it raises EOFError. *)
Inductive input_event :=
| Line (s : str)
| Interrupt.

(** [while True: ...], client.py lines 78-91, left by [break] ([Ok tt]) or
    by an exception. *)
Fixpoint main_loop (stdin : list input_event) : M unit :=
  match stdin with
  | [] => fun w => (Raise EOFError, log (EInput (Raise EOFError)) w)
  | Interrupt :: _ =>
      fun w => (Raise KeyboardInterrupt, log (EInput (Raise KeyboardInterrupt)) w)
  | Line message :: rest =>
      fun w =>
        let w := log (EInput (Ok message)) w in
        if truthy message then
          (sent <- send message ;;
           if negb sent then ret tt
           else if str_eqb message MSG_DISCONNECT then ret tt
           else main_loop rest) w
        else main_loop rest w
  end.

(** The script from its interactive part on, lines 75-98 (the socket is
    connected). *)
Definition main (stdin : list input_event) : M unit :=
  print Banner ;;
  main_loop stdin ;;
  print Closing ;;
  close.

End Client.

(* ================================================================== *)
(** * server.py *)
(* ================================================================== *)

Module Server.
Import Py World.
Local Open Scope py_scope.

Definition HEADER : Z := 64.
Definition PORT : Z := 5050.
Definition FORMAT : encoding := utf_8.
Definition MSG_DISCONNECT : str := lit "!Disconnect"%string.

(** The [try:] block of the loop body, server.py lines 48-72; the value is
    [connected] as the block leaves it. *)
Definition try_block (addr : address) : M bool :=
  header <- recv HEADER ;;
  msg_length_header <- lift (bytes_decode header FORMAT) ;;
  if negb (truthy msg_length_header) then ret false
  else
    msg_length <- lift (int msg_length_header) ;;
    payload <- recv msg_length ;;
    msg <- lift (bytes_decode payload FORMAT) ;;
    let connected := if str_eqb msg MSG_DISCONNECT then false else true in
    print (Received addr msg) ;;
    ack <- lift (str_encode (lit "Message received"%string) FORMAT) ;;
    World.send ack ;;
    ret connected.

(** The three [except] clauses, lines 76-86, tried in order. *)
Definition except_clauses (addr : address) (e : exn) : M bool :=
  if is_ConnectionResetError e then print (ErrorReset addr) ;; ret false
  else if is_ValueError e then print (ErrorInvalidHeader addr) ;; ret false
  else if is_Exception e then print (UnexpectedError addr e) ;; ret false
  else raise e.

(** One pass of the body of [while connected:]. *)
Definition iteration (addr : address) : M bool :=
  try_except (try_block addr) (except_clauses addr).

(** [while connected: ...].  [None]: the fuel ran out. *)
Fixpoint while_connected (fuel : nat) (addr : address) (w : world)
  : option (result unit * world) :=
  match fuel with
  | O => None
  | S fuel' =>
      match iteration addr w with
      | (Ok true, w') => while_connected fuel' addr w'
      | (Ok false, w') => Some (Ok tt, w')
      | (Raise e, w') => Some (Raise e, w')
      end
  end.

(** The loop and the cleanup after it, from the head of the loop. *)
Definition serve (fuel : nat) (addr : address) (w : world)
  : option (result unit * world) :=
  match while_connected fuel addr w with
  | Some (Ok _, w1) => Some ((print (ClosingFor addr) ;; close) w1)
  | Some (Raise e, w1) => Some (Raise e, w1)
  | None => None
  end.

(** [handle_client(conn, addr)], lines 38-92.  Every pass that stays
    connected has taken something from the inbox, so its size bounds the
    number of passes.  (The listener, [start], hands each accepted
    connection to a thread of its own running this function; threads are
    not modelled, each handler has a world of its own.) *)
Definition handle_client (addr : address) (w : world)
  : option (result unit * world) :=
  let '(_, w0) := print (NewConnection addr) w in
  serve (S (pending (inbox w0))) addr w0.

End Server.

(* ================================================================== *)
(** * server.py: the handler on the interpreter's console and buffers *)
(* ================================================================== *)

Module Runtime.
Import Py World.
Local Open Scope py_scope.

(** [handle_client] once more, with two failures of the interpreter that
    [Server] leaves out: a [print] whose text the console cannot encode,
    and a [recv] whose buffer is too large to be a bytes object. *)

(** The encoding of [sys.stdout], as the characters it has bytes for. *)
Definition charset : Type := Z -> bool.

(** UTF-8, the usual encoding of the console: the characters
    [str.encode('utf-8')] has bytes for, every one but the surrogates. *)
Definition utf_8_console : charset :=
  fun c => match utf8_char c with Some _ => true | None => false end.

(** A console that has ASCII only. *)
Definition ascii_console : charset := fun c => (0 <=? c) && (c <? 128).

(** [print(f"[{addr}] {msg}")], line 69.  The text is encoded whole before
    anything is written: a character of the message that the encoding
    lacks raises UnicodeEncodeError, and the line is not printed.  What the
    line has besides the message is ASCII. *)
Definition print_message (stdout : charset) (addr : address) (msg : str)
  : M unit :=
  if forallb stdout msg then print (Received addr msg)
  else raise UnicodeEncodeError.

(** The header of a bytes object and its final NUL, in bytes. *)
Definition PyBytesObject_SIZE : Z := 33.

(** [sock.recv(bufsize)] allocates a bytes object of [bufsize] bytes before
    it reads: CPython refuses a size above PY_SSIZE_T_MAX minus
    PyBytesObject_SIZE with OverflowError.  Below that, [World.deliver]. *)
Definition deliver (bufsize : Z) (i : list recv_event)
  : result bytes * list recv_event :=
  if PY_SSIZE_T_MAX - PyBytesObject_SIZE <? bufsize
  then (Raise OverflowError, i)
  else World.deliver bufsize i.

Definition recv (bufsize : Z) : M bytes :=
  fun w =>
    let '(r, i) := deliver bufsize (inbox w) in
    (r, mkWorld i (outcomes w) (trace w ++ [ERecv bufsize r])).

(** The [try:] block of the loop body, server.py lines 48-72. *)
Definition try_block (stdout : charset) (addr : address) : M bool :=
  header <- recv Server.HEADER ;;
  msg_length_header <- lift (bytes_decode header Server.FORMAT) ;;
  if negb (truthy msg_length_header) then ret false
  else
    msg_length <- lift (int msg_length_header) ;;
    payload <- recv msg_length ;;
    msg <- lift (bytes_decode payload Server.FORMAT) ;;
    let connected :=
      if str_eqb msg Server.MSG_DISCONNECT then false else true in
    print_message stdout addr msg ;;
    ack <- lift (str_encode (lit "Message received"%string) Server.FORMAT) ;;
    World.send ack ;;
    ret connected.

(** One pass of the body of [while connected:], with the three [except]
    clauses of lines 76-86. *)
Definition iteration (stdout : charset) (addr : address) : M bool :=
  try_except (try_block stdout addr) (Server.except_clauses addr).

(** [while connected: ...].  [None]: the fuel ran out. *)
Fixpoint while_connected (stdout : charset) (fuel : nat) (addr : address)
    (w : world) : option (result unit * world) :=
  match fuel with
  | O => None
  | S fuel' =>
      match iteration stdout addr w with
      | (Ok true, w') => while_connected stdout fuel' addr w'
      | (Ok false, w') => Some (Ok tt, w')
      | (Raise e, w') => Some (Raise e, w')
      end
  end.

(** The loop and the cleanup after it, lines 88-92. *)
Definition serve (stdout : charset) (fuel : nat) (addr : address) (w : world)
  : option (result unit * world) :=
  match while_connected stdout fuel addr w with
  | Some (Ok _, w1) => Some ((print (ClosingFor addr) ;; close) w1)
  | Some (Raise e, w1) => Some (Raise e, w1)
  | None => None
  end.

(** [handle_client(conn, addr)], lines 38-92. *)
Definition handle_client (stdout : charset) (addr : address) (w : world)
  : option (result unit * world) :=
  let '(_, w0) := print (NewConnection addr) w in
  serve stdout (S (pending (inbox w0))) addr w0.

End Runtime.


(* ================================================================== *)
(** * server.py: the listener *)
(* ================================================================== *)

Module Listener.
Import Py World.

(** What [server.accept()] gives at each call: a connection (the world of
    its socket, the peer's address, and what [threading.active_count()]
    answers once the handler's thread is started), or an exception.  When
    nothing is left, [accept] waits for ever. *)
Inductive accept_event :=
| Connection (conn : world) (addr : address) (active_count : Z)
| AcceptRaises (e : exn).

(** One constructor per [print] statement of the listener. *)
Inductive line :=
| Starting
| Listening
| ActiveConnections (n : Z)
| CouldNotStart
| Details (e : exn)
| UnexpectedErrorOccurred (e : exn)
| Shutdown.

(** What the listener did, in order.  [EThread addr run]: a thread was
    started on [handle_client(conn, addr)]; [run] is what that call does on
    its connection, whenever the thread gets to run. *)
Inductive event :=
| EBind (r : result unit)
| EListen (r : result unit)
| EAccept (r : result address)
| EThread (addr : address) (run : option (result unit * world))
| EClose
| EPrint (l : line).

Definition is_OSError (e : exn) : bool :=
  match e with
  | ConnectionResetError | BrokenPipeError | OSError => true
  | _ => false
  end.

(** How the listener ends. *)
Inductive ending :=
| Waiting                   (* still in accept(): the backlog is used up *)
| Returned
| Propagated (e : exn).

(** [while True: ...], server.py lines 106-120: left only by an exception
    ([Some e]); [None] when the loop waits in [accept].  Starting a thread
    and printing are taken not to raise. *)
Fixpoint accept_loop (backlog : list accept_event) (t : list event)
  : option exn * list event :=
  match backlog with
  | [] => (None, t)
  | AcceptRaises e :: _ => (Some e, t ++ [EAccept (Raise e)])
  | Connection conn addr active_count :: rest =>
      accept_loop rest
        (t ++ [EAccept (Ok addr);
               EThread addr (Server.handle_client addr conn);
               EPrint (ActiveConnections (active_count - 1))])
  end.

(** [start()], lines 98-130: the [try] block, the two [except] clauses and
    the [finally] clause. *)
Definition start (listen : result unit) (backlog : list accept_event)
    (t : list event) : ending * list event :=
  let '(left_by, t1) :=
    match listen with
    | Raise e => (Some e, t ++ [EListen (Raise e)])
    | Ok _ => accept_loop backlog (t ++ [EListen (Ok tt); EPrint Listening])
    end in
  match left_by with
  | None => (Waiting, t1)
  | Some e =>
      let finally t := t ++ [EClose; EPrint Shutdown] in
      if is_OSError e then
        (Returned, finally (t1 ++ [EPrint CouldNotStart; EPrint (Details e)]))
      else if is_Exception e then
        (Returned, finally (t1 ++ [EPrint (UnexpectedErrorOccurred e)]))
      else (Propagated e, finally t1)
  end.

(** The script: [server.bind(ADDR)] at line 32, outside any [try]; then
    lines 136-137. *)
Definition script (bind listen : result unit) (backlog : list accept_event)
  : ending * list event :=
  match bind with
  | Raise e => (Propagated e, [EBind (Raise e)])
  | Ok _ => start listen backlog [EBind (Ok tt); EPrint Starting]
  end.

(** How often the listening socket was closed. *)
Fixpoint closes (t : list event) : nat :=
  match t with
  | [] => O
  | EClose :: t' => S (closes t')
  | _ :: t' => closes t'
  end.

(** The handler threads started, in order. *)
Fixpoint threads (t : list event)
  : list (address * option (result unit * world)) :=
  match t with
  | [] => []
  | EThread addr run :: t' => (addr, run) :: threads t'
  | _ :: t' => threads t'
  end.

(** The connections [accept] hands out before it first raises. *)
Fixpoint connections (backlog : list accept_event) : list (world * address) :=
  match backlog with
  | [] => []
  | AcceptRaises _ :: _ => []
  | Connection conn addr _ :: rest => (conn, addr) :: connections rest
  end.

End Listener.

(* ================================================================== *)
(** * Notions the statements use *)
(* ================================================================== *)

Import Py World.

(** The byte strings handed to [send], in order. *)
Fixpoint sends (t : list event) : list bytes :=
  match t with
  | [] => []
  | ESend data _ :: t' => data :: sends t'
  | _ :: t' => sends t'
  end.

(** The [recv] calls, in order: the size asked for and what came back. *)
Fixpoint recvs (t : list event) : list (Z * result bytes) :=
  match t with
  | [] => []
  | ERecv n r :: t' => (n, r) :: recvs t'
  | _ :: t' => recvs t'
  end.

(** How often the socket was closed. *)
Fixpoint closes (t : list event) : nat :=
  match t with
  | [] => O
  | EClose :: t' => S (closes t')
  | _ :: t' => closes t'
  end.

(** Lines 51 and 59 of server.py on the bytes of a header:
    [int(header.decode(FORMAT))]. *)
Definition decode_header (header : bytes) : result Z :=
  match bytes_decode header Server.FORMAT with
  | Ok msg_length_header => int msg_length_header
  | Raise e => Raise e
  end.

(** The line the matching [except] clause of the handler prints. *)
Definition error_line (addr : address) (e : exn) : line :=
  if is_ConnectionResetError e then ErrorReset addr
  else if is_ValueError e then ErrorInvalidHeader addr
  else UnexpectedError addr e.

(** The wire format of a header: decimal digits, then spaces. *)
Definition wire_header (n : Z) (pad : nat) : bytes :=
  str_int n ++ repeat 32 pad.

(** Characters that the three codecs leave alone. *)
Definition ascii (s : list Z) : Prop := Forall (fun c => 0 <= c < 127) s.

(** ASCII decimal digits. *)
Definition digits (s : list Z) : Prop := Forall (fun c => 48 <= c <= 57) s.

(** The number a little-endian digit list writes. *)
Fixpoint value_le (l : list Z) : Z :=
  match l with
  | [] => 0
  | c :: l' => (c - 48) + 10 * value_le l'
  end.

(** One step of the digit loop of [scan_digits]. *)
Definition shift_in (acc c : Z) : Z := 10 * acc + (c - 48).

(** Steps 2 and 3 of [Client.send] on the encoded message: the length in
    decimal, then [HEADER - len(send_length)] spaces. *)
Definition client_header (message : bytes) : bytes :=
  let send_length := str_int (len message) in
  send_length ++ bytes_mul [32] (Client.HEADER - len send_length).

(** The next [k] calls of [send] are accepted (no fault among them). *)
Fixpoint accepting (k : nat) (o : list send_event) : Prop :=
  match k, o with
  | O, _ => True
  | S _, [] => True
  | S k', Accepted :: o' => accepting k' o'
  | S _, SendFault _ :: _ => False
  end.

(** The world after an accepted [send]. *)
Definition after_send (data : bytes) (w : world) : world :=
  mkWorld (inbox w) (tl (outcomes w)) (trace w ++ [ESend data (Ok (len data))]).

(** The byte strings the client hands to [send] come as frames: a header
    that decodes to the length of the payload sent after it, at least 1.
    The last header may stand alone, when its own send is where the
    connection failed. *)
Fixpoint positive_frames (l : list bytes) : Prop :=
  match l with
  | [] => True
  | [header] => exists n, 1 <= n /\ decode_header header = Ok n
  | header :: payload :: rest =>
      decode_header header = Ok (len payload)
      /\ 1 <= len payload
      /\ positive_frames rest
  end.


(* ================================================================== *)
(** * Notions for whole conversations *)
(* ================================================================== *)

(** The bytes of a message on the wire: [msg.encode(FORMAT)] (nothing when
    the message cannot be encoded). *)
Definition payload_of (msg : str) : bytes :=
  match str_encode msg Client.FORMAT with
  | Ok message => message
  | Raise _ => []
  end.

(** The two byte strings [Client.send] hands to the socket for a message:
    the header, then the payload. *)
Definition frame_units (msg : str) : list bytes :=
  [client_header (payload_of msg); payload_of msg].

(** A message the console can print. *)
Definition printable (stdout : Runtime.charset) (msg : str) : Prop :=
  forallb stdout msg = true.

(** A message the client can frame and the server can ask [recv] for: not
    empty, encodable, and no longer than a bytes object can be. *)
Definition sendable (msg : str) : Prop :=
  msg <> []
  /\ exists message,
      str_encode msg Client.FORMAT = Ok message
      /\ len message <= PY_SSIZE_T_MAX - Runtime.PyBytesObject_SIZE.

(** Byte strings arriving in chunks, each chunk made of whole byte strings:
    the network may merge what was sent by several calls of [send], but
    here it does not cut through one. *)
Definition chunked (chunks : list (list bytes)) : list recv_event :=
  flat_map (fun units =>
              match concat units with
              | [] => []
              | _ :: _ => [Data (concat units)]
              end) chunks.

(** The messages up to and including the first disconnect sentinel. *)
Fixpoint upto_sentinel (msgs : list str) : list str :=
  match msgs with
  | [] => []
  | m :: rest =>
      if str_eqb m Server.MSG_DISCONNECT then [m] else m :: upto_sentinel rest
  end.

Definition has_sentinel (msgs : list str) : bool :=
  existsb (fun m => str_eqb m Server.MSG_DISCONNECT) msgs.

(** What the handler does on a frame that arrives whole and is
    acknowledged. *)
Definition pass_events (addr : address) (msg : str) : list event :=
  [ERecv Server.HEADER (Ok (client_header (payload_of msg)));
   ERecv (len (payload_of msg)) (Ok (payload_of msg));
   EPrint (Received addr msg);
   ESend (lit "Message received") (Ok 16)].

(** The messages the handler printed, in order. *)
Fixpoint logged (t : list event) : list str :=
  match t with
  | [] => []
  | EPrint (Received _ msg) :: t' => msg :: logged t'
  | _ :: t' => logged t'
  end.

(** All sends are accepted. *)
Definition all_accepted (o : list send_event) : Prop :=
  Forall (fun s => s = Accepted) o.

(** Every read of up to 2048 bytes returns a whole chunk of valid UTF-8. *)
Definition readable (i : list recv_event) : Prop :=
  Forall (fun ev => exists b, ev = Data b
                              /\ (length b <= 2048)%nat
                              /\ utf8_decode b <> None) i.

(** A line the client can encode. *)
Definition encodable (msg : str) : Prop :=
  exists message, str_encode msg Client.FORMAT = Ok message.

(** What is sent is one acknowledgment per message printed, and nothing
    else. *)
Definition acks_match (evs : list event) : Prop :=
  sends evs = map (fun _ => lit "Message received") (logged evs).


(** The exception a socket call of the trace raised, if it raised one. *)
Definition raised (ev : event) (e : exn) : Prop :=
  match ev with
  | ERecv _ (Raise e') => e' = e
  | ESend _ (Raise e') => e' = e
  | _ => False
  end.

(* ================================================================== *)
(** * Facts about the builtins *)
(* ================================================================== *)

(** The builtins on a few inputs, as CPython 3.11 answers them. *)
Example int_examples :
  int (lit "42") = Ok 42
  /\ int (lit " 7  ") = Ok 7
  /\ int (lit "+5") = Ok 5
  /\ int (lit "-5") = Ok (-5)
  /\ int (lit "1_0") = Ok 10
  /\ int (lit "00012") = Ok 12
  /\ int [1635] = Ok 3
  /\ int [53; 12288] = Ok 5
  /\ int (lit "") = Raise ValueError
  /\ int (lit "   ") = Raise ValueError
  /\ int (lit "1__0") = Raise ValueError
  /\ int (lit "_1") = Raise ValueError
  /\ int (lit "1_") = Raise ValueError
  /\ int (lit "+ 5") = Raise ValueError
  /\ int (lit "0x10") = Raise ValueError
  /\ int (lit "12a") = Raise ValueError
  /\ int [53; 0] = Raise ValueError
  /\ int [28; 49] = Raise ValueError.
Proof. repeat split; vm_compute; reflexivity. Qed.

Example str_int_examples :
  str_int 0 = lit "0"
  /\ str_int 5 = lit "5"
  /\ str_int 64 = lit "64"
  /\ str_int 1234567890 = lit "1234567890"
  /\ str_int (-12) = lit "-12"
  /\ bytes_mul [32] 3 = lit "   "
  /\ bytes_mul [32] (-1) = [].
Proof. repeat split; vm_compute; reflexivity. Qed.

Example utf8_examples :
  str_encode [104; 233; 8364; 128512] utf_8
  = Ok [104; 195; 169; 226; 130; 172; 240; 159; 152; 128]
  /\ bytes_decode [104; 195; 169; 226; 130; 172; 240; 159; 152; 128] utf_8
     = Ok [104; 233; 8364; 128512]
  /\ str_encode [55296] utf_8 = Raise UnicodeEncodeError
  /\ bytes_decode [192; 128] utf_8 = Raise UnicodeDecodeError
  /\ bytes_decode [237; 160; 128] utf_8 = Raise UnicodeDecodeError
  /\ bytes_decode [244; 144; 128; 128] utf_8 = Raise UnicodeDecodeError
  /\ bytes_decode [195] utf_8 = Raise UnicodeDecodeError
  /\ bytes_decode [128] utf_8 = Raise UnicodeDecodeError.
Proof. repeat split; vm_compute; reflexivity. Qed.

Section Ascii.

Lemma utf8_encode_ascii s : ascii s -> utf8_encode s = Some s.
Proof.
  induction 1 as [|c s Hc _ IH]; [reflexivity|].
  cbn [utf8_encode]. unfold utf8_char.
  destruct (Z.ltb_spec c 0); [lia|].
  destruct (Z.ltb_spec c 128); [|lia].
  now rewrite IH.
Qed.

Lemma utf8_decode_ascii s : ascii s -> utf8_decode s = Some s.
Proof.
  induction 1 as [|c s Hc _ IH]; [reflexivity|].
  cbn [utf8_decode].
  destruct (Z.leb_spec 0 c); [|lia].
  destruct (Z.ltb_spec c 128); [|lia].
  cbn [andb]. now rewrite IH.
Qed.

Lemma transform_ascii s : ascii s -> transform_decimal_and_space s = Some s.
Proof.
  induction 1 as [|c s Hc _ IH]; [reflexivity|].
  cbn [transform_decimal_and_space].
  destruct (Z.ltb_spec c 127); [|lia].
  now rewrite IH.
Qed.

Lemma ascii_app a b : ascii a -> ascii b -> ascii (a ++ b).
Proof. intros; now apply Forall_app. Qed.

Lemma ascii_spaces k : ascii (repeat 32 k).
Proof. induction k; constructor; [lia|assumption]. Qed.

End Ascii.

Section Decimal.

Lemma digits_le_digits fuel n : digits (digits_le fuel n).
Proof.
  revert n; induction fuel as [|f IH]; intro n; [constructor|].
  cbn [digits_le]. constructor.
  - pose proof (Z.mod_pos_bound n 10). lia.
  - destruct (n / 10 =? 0); [constructor | apply IH].
Qed.

Lemma digits_ascii s : digits s -> ascii s.
Proof. apply Forall_impl; intros; lia. Qed.

Lemma str_nat_digits n : digits (str_nat n).
Proof. apply Forall_rev, digits_le_digits. Qed.

Lemma str_nat_nonempty n : str_nat n <> [].
Proof.
  unfold str_nat. cbn [digits_le]. cbn [rev].
  intro H. now apply app_eq_nil in H as [_ H].
Qed.

Lemma digits_le_value fuel n :
  0 <= n < 2 ^ Z.of_nat fuel -> value_le (digits_le fuel n) = n.
Proof.
  revert n; induction fuel as [|f IH]; intros n Hn.
  - cbn in Hn. assert (n = 0) by lia. now subst.
  - cbn [digits_le value_le].
    pose proof (Z.div_mod n 10 ltac:(lia)) as Hdm.
    destruct (Z.eqb_spec (n / 10) 0) as [Hz|Hz].
    + cbn [value_le]. lia.
    + rewrite IH; [lia|].
      rewrite Nat2Z.inj_succ, Z.pow_succ_r in Hn by lia.
      split; [apply Z.div_pos; lia|].
      apply Z.div_lt_upper_bound; lia.
Qed.

Lemma str_nat_value n : 0 <= n -> value_le (rev (str_nat n)) = n.
Proof.
  intro Hn. unfold str_nat. rewrite rev_involutive.
  apply digits_le_value. split; [assumption|].
  destruct (Z.eq_dec n 0) as [->|Hz]; [cbn; lia|].
  rewrite Nat2Z.inj_succ, Z2Nat.id by apply Z.log2_nonneg.
  apply Z.log2_spec. lia.
Qed.

Lemma fold_shift_in_rev l : fold_left shift_in (rev l) 0 = value_le l.
Proof.
  induction l as [|c l IH]; [reflexivity|].
  cbn [rev value_le]. rewrite fold_left_app. cbn [fold_left].
  rewrite IH. unfold shift_in. lia.
Qed.

Lemma skip_space_spaces k : skip_space (repeat 32 k) = [].
Proof. induction k; [reflexivity|]. cbn. assumption. Qed.

Lemma scan_digits_padded ds k acc :
  digits ds ->
  scan_digits false acc (ds ++ repeat 32 k)
  = Some (fold_left shift_in ds acc, repeat 32 k).
Proof.
  intro H. revert acc.
  induction H as [|c ds Hc _ IH]; intro acc.
  - destruct k; reflexivity.
  - cbn [app scan_digits fold_left]. unfold is_digit.
    destruct (Z.leb_spec 48 c); [|lia].
    destruct (Z.leb_spec c 57); [|lia].
    cbn [andb]. apply IH.
Qed.

(** [int] reads back what [str] writes, whatever the space padding. *)
Lemma int_str_nat_padded n k :
  0 <= n -> int (str_nat n ++ repeat 32 k) = Ok n.
Proof.
  intro Hn. unfold int.
  rewrite transform_ascii
    by (apply ascii_app; [apply digits_ascii, str_nat_digits | apply ascii_spaces]).
  pose proof (str_nat_digits n) as Hd.
  pose proof (str_nat_value n Hn) as Hv.
  rewrite <- fold_shift_in_rev, rev_involutive in Hv.
  destruct (str_nat n) as [|c ds] eqn:E; [now apply str_nat_nonempty in E|].
  apply Forall_cons_iff in Hd as [Hc Hds].
  unfold PyLong_FromString. cbn [app skip_space]. unfold Py_ISSPACE.
  destruct (Z.eqb_spec c 32); [lia|].
  destruct (Z.leb_spec 9 c); [|lia].
  destruct (Z.leb_spec c 13); [lia|].
  cbn [orb andb].
  destruct (Z.eqb_spec c 43); [lia|].
  destruct (Z.eqb_spec c 45); [lia|].
  unfold is_digit.
  destruct (Z.leb_spec 48 c); [|lia].
  destruct (Z.leb_spec c 57); [|lia].
  cbn [andb].
  rewrite scan_digits_padded by assumption.
  rewrite skip_space_spaces.
  cbn [fold_left] in Hv. unfold shift_in at 2 in Hv.
  replace (10 * 0 + (c - 48)) with (c - 48) in Hv by lia.
  rewrite Hv. f_equal. lia.
Qed.

Lemma str_int_nonneg n : 0 <= n -> str_int n = str_nat n.
Proof. intro H. unfold str_int. destruct (Z.ltb_spec n 0); [lia|reflexivity]. Qed.

Lemma str_int_ascii n : ascii (str_int n).
Proof.
  unfold str_int. destruct (n <? 0).
  - constructor; [lia|]. apply digits_ascii, str_nat_digits.
  - apply digits_ascii, str_nat_digits.
Qed.

Lemma str_encode_str_int n enc : str_encode (str_int n) enc = Ok (str_int n).
Proof.
  destruct enc. unfold str_encode.
  now rewrite utf8_encode_ascii by apply str_int_ascii.
Qed.

Lemma bytes_mul_space k : bytes_mul [32] k = repeat 32 (Z.to_nat k).
Proof.
  unfold bytes_mul. induction (Z.to_nat k) as [|m IH]; [reflexivity|].
  cbn. now rewrite IH.
Qed.

(** A header in wire format decodes to the number it writes. *)
Lemma decode_wire_header n pad :
  0 <= n -> decode_header (wire_header n pad) = Ok n.
Proof.
  intro Hn. unfold decode_header, wire_header, bytes_decode, Server.FORMAT.
  rewrite str_int_nonneg by assumption.
  rewrite utf8_decode_ascii
    by (apply ascii_app; [apply digits_ascii, str_nat_digits | apply ascii_spaces]).
  now apply int_str_nat_padded.
Qed.

End Decimal.

(* ================================================================== *)
(** * Facts about the socket and the trace *)
(* ================================================================== *)

Section Traces.

Lemma sends_app a b : sends (a ++ b) = sends a ++ sends b.
Proof.
  induction a as [|e a IH]; [reflexivity|].
  destruct e; cbn [app sends]; now rewrite ?IH.
Qed.

Lemma recvs_app a b : recvs (a ++ b) = recvs a ++ recvs b.
Proof.
  induction a as [|e a IH]; [reflexivity|].
  destruct e; cbn [app recvs]; now rewrite ?IH.
Qed.

Lemma closes_app a b : closes (a ++ b) = (closes a + closes b)%nat.
Proof.
  induction a as [|e a IH]; [reflexivity|].
  destruct e; cbn [app closes]; now rewrite ?IH.
Qed.

Lemma send_accepted data w :
  accepting 1 (outcomes w) ->
  World.send data w = (Ok (len data), after_send data w).
Proof.
  unfold World.send, accept, after_send.
  destruct w as [i o t]; cbn [outcomes inbox trace].
  destruct o as [|[|f] o]; cbn; intros H; [reflexivity|reflexivity|contradiction].
Qed.

Lemma accepting_after_send k data w :
  accepting (S k) (outcomes w) -> accepting k (outcomes (after_send data w)).
Proof.
  destruct w as [i o t]; cbn [after_send outcomes tl].
  destruct o as [|[|f] o]; cbn; intros H;
    [destruct k; exact I | assumption | contradiction].
Qed.

Lemma accepting_S k o : accepting (S k) o -> accepting 1 o.
Proof. destruct o as [|[|f] o]; cbn; auto. Qed.

(** A call of [recv] in terms of what the inbox delivers. *)
Lemma recv_eq n w :
  recv n w
  = (fst (deliver n (inbox w)),
     mkWorld (snd (deliver n (inbox w))) (outcomes w)
             (trace w ++ [ERecv n (fst (deliver n (inbox w)))])).
Proof. unfold recv. now destruct (deliver n (inbox w)). Qed.

Lemma send_eq data w :
  World.send data w
  = (fst (accept data (outcomes w)),
     mkWorld (inbox w) (snd (accept data (outcomes w)))
             (trace w ++ [ESend data (fst (accept data (outcomes w)))])).
Proof. unfold World.send. now destruct (accept data (outcomes w)). Qed.

End Traces.

(* ================================================================== *)
(** * The client's [send] *)
(* ================================================================== *)

Section ClientSend.

(** What [Client.send] hands to the socket once the message is encoded and
    both sends are accepted, whatever the acknowledgment read does. *)
Lemma client_send_sends msg message w :
  str_encode msg Client.FORMAT = Ok message ->
  accepting 2 (outcomes w) ->
  sends (trace (snd (Client.send msg w)))
  = sends (trace w) ++ [client_header message; message].
Proof.
  intros Henc Hacc.
  unfold Client.send, try_except, bind, lift.
  rewrite Henc, str_encode_str_int.
  fold (client_header message).
  rewrite send_accepted by (eapply accepting_S; eassumption).
  rewrite send_accepted by (now apply accepting_after_send).
  set (w2 := after_send message (after_send (client_header message) w)).
  assert (Hw2 : sends (trace w2)
                = sends (trace w) ++ [client_header message; message]).
  { unfold w2, after_send; cbn [trace].
    rewrite !sends_app. cbn [sends]. now rewrite <- app_assoc. }
  rewrite recv_eq.
  set (w3 := mkWorld _ _ _).
  assert (Hr : sends (trace w3)
               = sends (trace w) ++ [client_header message; message]).
  { unfold w3; cbn [trace]. rewrite sends_app, Hw2. cbn [sends].
    now rewrite app_nil_r. }
  clearbody w3.
  destruct (fst (deliver 2048 (inbox w2))) as [response|e].
  - destruct (bytes_decode response Client.FORMAT) as [text|e].
    + cbn [print ret log snd trace]. rewrite sends_app, Hr. cbn [sends].
      now rewrite app_nil_r.
    + destruct (is_ConnectionResetError e || is_BrokenPipeError e);
        cbn [print ret raise log snd trace bind];
        rewrite ?sends_app, Hr; cbn [sends]; now rewrite ?app_nil_r.
  - destruct (is_ConnectionResetError e || is_BrokenPipeError e);
      cbn [print ret raise log snd trace bind];
      rewrite ?sends_app, Hr; cbn [sends]; now rewrite ?app_nil_r.
Qed.

(** The whole of a [send] in which nothing fails. *)
Lemma client_send_success msg message response text w :
  str_encode msg Client.FORMAT = Ok message ->
  accepting 2 (outcomes w) ->
  fst (deliver 2048 (inbox w)) = Ok response ->
  bytes_decode response Client.FORMAT = Ok text ->
  Client.send msg w
  = (Ok true,
     mkWorld (snd (deliver 2048 (inbox w))) (tl (tl (outcomes w)))
       (trace w ++ [ESend (client_header message) (Ok (len (client_header message)));
                    ESend message (Ok (len message));
                    ERecv 2048 (Ok response);
                    EPrint (ServerSaid text)])).
Proof.
  intros Henc Hacc Hrecv Hdec.
  unfold Client.send, try_except, bind, lift.
  rewrite Henc, str_encode_str_int.
  fold (client_header message).
  rewrite send_accepted by (eapply accepting_S; eassumption).
  rewrite send_accepted by (now apply accepting_after_send).
  rewrite recv_eq. cbn [after_send inbox outcomes trace].
  rewrite Hrecv, Hdec. unfold print, ret, log. cbn [inbox outcomes trace].
  do 2 f_equal. rewrite <- !app_assoc. reflexivity.
Qed.

End ClientSend.

(* ================================================================== *)
(** * The frame *)
(* ================================================================== *)

Section Frame.

Lemma len_nonneg {A} (l : list A) : 0 <= len l.
Proof. unfold len. lia. Qed.

Lemma client_header_wire message :
  client_header message
  = wire_header (len message)
      (Z.to_nat (Client.HEADER - len (str_int (len message)))).
Proof. unfold client_header, wire_header. now rewrite bytes_mul_space. Qed.

Lemma client_header_length message :
  (length (str_int (len message)) <= 64)%nat ->
  length (client_header message) = 64%nat.
Proof.
  intro H. rewrite client_header_wire. unfold wire_header, Client.HEADER, len in *.
  rewrite length_app, repeat_length. lia.
Qed.

Lemma decode_client_header message :
  decode_header (client_header message) = Ok (len message).
Proof. rewrite client_header_wire. apply decode_wire_header, len_nonneg. Qed.

End Frame.

(** C1.  Round trip of a frame.  Let [message] be the UTF-8 encoding of a
    text payload whose length, written in decimal, takes at most 64
    characters.  The client's [send] hands the socket a header and then
    [message]; the header is exactly 64 bytes long; decoding the first 64
    bytes of the frame (header followed by payload) as the server does
    ([int(header.decode(FORMAT))]) gives the byte length of [message]; and
    the bytes of the frame after the header are [message] unchanged. *)
Theorem C1_frame_round_trip :
  forall (msg : str) (message : bytes) (w : world),
    str_encode msg Client.FORMAT = Ok message ->
    (length (str_int (len message)) <= 64)%nat ->
    accepting 2 (outcomes w) ->
    exists header : bytes,
      sends (trace (snd (Client.send msg w)))
      = sends (trace w) ++ [header; message]
      /\ length header = Z.to_nat Client.HEADER
      /\ decode_header (firstn (Z.to_nat Server.HEADER) (header ++ message))
         = Ok (len message)
      /\ skipn (Z.to_nat Server.HEADER) (header ++ message) = message.
Proof.
  intros msg message w Henc Hfit Hacc.
  exists (client_header message).
  pose proof (client_header_length message Hfit) as Hlen.
  assert (Hw : Z.to_nat Server.HEADER = length (client_header message))
    by (rewrite Hlen; reflexivity).
  repeat split.
  - now apply client_send_sends.
  - rewrite Hlen; reflexivity.
  - rewrite Hw, firstn_app, firstn_all, Nat.sub_diag, firstn_O, app_nil_r.
    apply decode_client_header.
  - rewrite Hw, skipn_app, skipn_all, Nat.sub_diag, skipn_O. reflexivity.
Qed.

(** The payload "hello" on a quiet connection. *)
Lemma C1_frame_round_trip_witness :
  exists header : bytes,
    sends (trace (snd (Client.send (lit "hello") (mkWorld [] [] []))))
    = [header; lit "hello"]
    /\ length header = 64%nat
    /\ decode_header (firstn 64 (header ++ lit "hello")) = Ok 5
    /\ skipn 64 (header ++ lit "hello") = lit "hello".
Proof.
  apply (C1_frame_round_trip (lit "hello") (lit "hello") (mkWorld [] [] []));
    [ reflexivity | vm_compute; repeat constructor | exact I ].
Defined.

(* ================================================================== *)
(** * A length too long for the header *)
(* ================================================================== *)

Section LengthFits.




End LengthFits.



(* ================================================================== *)
(** * The handler: one pass of the loop *)
(* ================================================================== *)

Section Raised.

Lemma deliver_raise n i e i' :
  deliver n i = (Raise e, i') -> is_Exception e = true.
Proof.
  unfold deliver.
  destruct (_ || _); [intro H; inversion H; reflexivity|].
  destruct (n <? 0); [intro H; inversion H; reflexivity|].
  destruct i as [|[b|f] rest]; intro H; inversion H.
  destruct f; reflexivity.
Qed.

Lemma accept_raise d o e o' :
  accept d o = (Raise e, o') -> is_Exception e = true.
Proof.
  unfold accept. destruct o as [|[|f] rest]; intro H; inversion H.
  destruct f; reflexivity.
Qed.

Lemma bytes_decode_raise b enc e :
  bytes_decode b enc = Raise e -> e = UnicodeDecodeError.
Proof.
  destruct enc; unfold bytes_decode.
  destruct (utf8_decode b); intro H; inversion H; reflexivity.
Qed.

Lemma int_raise s e : int s = Raise e -> e = ValueError.
Proof.
  unfold int.
  destruct (transform_decimal_and_space s) as [a|];
    [|intro H; inversion H; reflexivity].
  destruct (PyLong_FromString a); intro H; inversion H; reflexivity.
Qed.

(** Every exception class but KeyboardInterrupt is met by one of the three
    clauses, which prints its line and leaves [connected] false. *)
Lemma except_clauses_exception addr e w :
  is_Exception e = true ->
  Server.except_clauses addr e w
  = (Ok false, log (EPrint (error_line addr e)) w).
Proof. destruct e; intro H; try discriminate H; reflexivity. Qed.

Lemma bytes_decode_nil_inv b enc :
  bytes_decode b enc = Ok [] -> b = [].
Proof.
  destruct enc; unfold bytes_decode.
  destruct b as [|b1 t1]; [reflexivity|]. cbn [utf8_decode].
  repeat match goal with
         | |- context [if ?c then _ else _] => destruct c
         | |- context [match ?l with [] => _ | _ :: _ => _ end] => destruct l
         | |- context [option_map _ ?o] => destruct o; cbn [option_map]
         end; intro H; inversion H.
Qed.

Lemma bytes_decode_nil enc : bytes_decode [] enc = Ok [].
Proof. destruct enc; reflexivity. Qed.

End Raised.

Section Delivery.

Lemma deliver_pending_le n i :
  (pending (snd (deliver n i)) <= pending i)%nat.
Proof.
  unfold deliver.
  destruct (_ || _); [cbn; lia|].
  destruct (n <? 0); [cbn; lia|].
  destruct i as [|[b|f] rest]; cbn [snd pending]; [lia| |lia].
  pose proof (length_skipn (Z.to_nat n) b) as Hs.
  destruct (skipn (Z.to_nat n) b) as [|x l] eqn:E; cbn [pending]; [lia|].
  cbn [length] in Hs. cbn [length]. lia.
Qed.

(** A header read that returns bytes has taken them from the inbox. *)
Lemma deliver_header_lt i b1 header :
  fst (deliver Server.HEADER i) = Ok (b1 :: header) ->
  (pending (snd (deliver Server.HEADER i)) < pending i)%nat.
Proof.
  unfold deliver, Server.HEADER. cbn [orb].
  change ((64 <? - PY_SSIZE_T_MAX - 1) || (PY_SSIZE_T_MAX <? 64)) with false.
  change (64 <? 0) with false. cbv beta iota.
  destruct i as [|[b|f] rest]; cbn [fst snd pending]; intro H;
    [discriminate H| |discriminate H].
  pose proof (length_skipn (Z.to_nat 64) b) as Hs.
  destruct b as [|x b]; [cbn in H; discriminate H|].
  destruct (skipn (Z.to_nat 64) (x :: b)) as [|y l] eqn:E; cbn [pending]; [lia|].
  cbn [length] in Hs |- *.
  assert (Z.to_nat 64 = 64%nat) by reflexivity. lia.
Qed.

End Delivery.

(** One case split per call and per test of the [try] block. *)
Ltac pass_step :=
  match goal with
  | |- context [deliver ?X ?Y] =>
      let Hd := fresh "Hd" in
      destruct (deliver X Y) as [[?header|?e] ?i] eqn:Hd; cbv beta iota zeta;
      [| rewrite (except_clauses_exception _ _ _ (deliver_raise _ _ _ _ Hd))]
  | |- context [bytes_decode ?X ?Y] =>
      let Hdec := fresh "Hdec" in
      destruct (bytes_decode X Y) as [?s|?e] eqn:Hdec; cbv beta iota zeta;
      [| pose proof (bytes_decode_raise _ _ _ Hdec); subst;
         rewrite except_clauses_exception by reflexivity]
  | |- context [int ?X] =>
      let Hint := fresh "Hint" in
      destruct (int X) as [?n|?e] eqn:Hint; cbv beta iota zeta;
      [| pose proof (int_raise _ _ Hint); subst;
         rewrite except_clauses_exception by reflexivity]
  | |- context [accept ?X ?Y] =>
      let Hacc := fresh "Hacc" in
      destruct (accept X Y) as [[?k|?e] ?o] eqn:Hacc; cbv beta iota zeta;
      [| rewrite (except_clauses_exception _ _ _ (accept_raise _ _ _ _ Hacc))]
  | |- context [truthy ?X] =>
      destruct X as [|?c ?s]; cbn [truthy negb]; cbv beta iota zeta
  end.

Ltac pass_cases :=
  unfold Server.iteration, try_except, Server.try_block, bind, lift, recv,
    World.send, print, ret;
  change (str_encode (lit "Message received") Server.FORMAT)
    with (@Ok bytes (lit "Message received"));
  cbv beta iota zeta;
  repeat pass_step.

(** What the inbox lost, read off the equations a case split leaves. *)
Ltac pending_facts :=
  repeat match goal with
         | H : deliver ?n ?i = (?r, ?i') |- _ =>
             let Hle := fresh "Hle" in
             pose proof (deliver_pending_le n i) as Hle;
             lazymatch r with
             | Ok (_ :: _) =>
                 let Hlt := fresh "Hlt" in
                 try (pose proof (deliver_header_lt i _ _ (f_equal fst H)) as Hlt;
                      rewrite H in Hlt; cbn [snd] in Hlt)
             | _ => idtac
             end;
             rewrite H in Hle; cbn [snd] in Hle; revert H
         end; intros.

Section Pass.

(** A pass never raises, closes nothing, and takes from the inbox whenever
    it leaves [connected] true. *)
Lemma iteration_facts addr w :
  exists b w' evs,
    Server.iteration addr w = (Ok b, w')
    /\ trace w' = trace w ++ evs
    /\ closes evs = O
    /\ (pending (inbox w') <= pending (inbox w))%nat
    /\ (b = true -> (pending (inbox w') < pending (inbox w))%nat).
Proof.
  pass_cases.
  all: do 3 eexists; split; [reflexivity|];
    unfold log; cbn [trace inbox outcomes] in *;
    split; [rewrite <- ?app_assoc; reflexivity|];
    split; [reflexivity|].
  all: try (destruct header as [|b1 header];
            [rewrite bytes_decode_nil in *; discriminate|]).
  all: pending_facts; split; [lia|]; try (intro; discriminate); try lia.
Qed.

End Pass.

(* ================================================================== *)
(** * The handler: the loop and the cleanup *)
(* ================================================================== *)

Section Loop.

Lemma while_connected_total addr :
  forall fuel w,
    (pending (inbox w) < fuel)%nat ->
    exists w' evs,
      Server.while_connected fuel addr w = Some (Ok tt, w')
      /\ trace w' = trace w ++ evs
      /\ closes evs = O.
Proof.
  induction fuel as [|fuel IH]; intros w Hfuel; [lia|].
  destruct (iteration_facts addr w) as (b & w1 & evs & Hit & Ht & Hc & Hle & Hlt).
  cbn [Server.while_connected]. rewrite Hit.
  destruct b.
  - destruct (IH w1) as (w' & evs' & Hw & Ht' & Hc'); [specialize (Hlt eq_refl); lia|].
    exists w', (evs ++ evs'). split; [assumption|]. split.
    + now rewrite Ht', Ht, app_assoc.
    + rewrite closes_app. lia.
  - exists w1, evs. auto.
Qed.

(** More fuel changes nothing. *)
Lemma while_connected_more_fuel addr :
  forall fuel w r,
    Server.while_connected fuel addr w = Some r ->
    Server.while_connected (S fuel) addr w = Some r.
Proof.
  induction fuel as [|fuel IH]; intros w r H; [discriminate H|].
  cbn [Server.while_connected] in H.
  change (Server.while_connected (S (S fuel)) addr w)
    with (match Server.iteration addr w with
          | (Ok true, w') => Server.while_connected (S fuel) addr w'
          | (Ok false, w') => Some (Ok tt, w')
          | (Raise e, w') => Some (Raise e, w')
          end).
  destruct (Server.iteration addr w) as [[[|]|e] w']; auto.
Qed.

(** A pass that leaves [connected] false is the last one. *)
Lemma serve_last_pass fuel addr w w1 :
  Server.iteration addr w = (Ok false, w1) ->
  Server.serve (S fuel) addr w
  = Some (Ok tt, mkWorld (inbox w1) (outcomes w1)
                   (trace w1 ++ [EPrint (ClosingFor addr); EClose])).
Proof.
  intro H. unfold Server.serve. cbn [Server.while_connected]. rewrite H.
  unfold bind, print, close, log. cbn [inbox outcomes trace].
  now rewrite <- app_assoc.
Qed.

(** The handler always returns, normally, having closed once, at the end. *)
Lemma handle_client_total addr w :
  exists w' evs,
    Server.handle_client addr w = Some (Ok tt, w')
    /\ trace w'
       = trace w ++ EPrint (NewConnection addr) :: evs
                 ++ [EPrint (ClosingFor addr); EClose]
    /\ closes evs = O.
Proof.
  unfold Server.handle_client, print. cbv beta iota zeta.
  set (w0 := log (EPrint (NewConnection addr)) w).
  destruct (while_connected_total addr (S (pending (inbox w0))) w0)
    as (w1 & evs & Hw & Ht & Hc); [lia|].
  unfold Server.serve. rewrite Hw.
  unfold bind, print, close, log. cbn [inbox outcomes trace].
  eexists. exists evs. split; [reflexivity|]. split; [|assumption].
  cbn [trace]. rewrite Ht. unfold w0, log. cbn [trace].
  rewrite <- !app_assoc. reflexivity.
Qed.

(** What the [try] block raises is always met by an [except] clause. *)
Lemma try_block_raises_exception addr w e w1 :
  Server.try_block addr w = (Raise e, w1) -> is_Exception e = true.
Proof.
  intro H.
  destruct (iteration_facts addr w) as (b & w' & evs & Hit & _).
  unfold Server.iteration, try_except in Hit. rewrite H in Hit.
  destruct e; try reflexivity. cbn in Hit. discriminate Hit.
Qed.

End Loop.

(** C5.  At the head of the loop, when the header read returns zero bytes
    the rest of the handler's life is: that read, the closing line, the
    close.  No error line is printed, nothing is raised, and no other read
    or send happens. *)
Theorem C5_peer_closed_cleanly :
  forall (fuel : nat) (addr : address) (w : world),
    fst (deliver Server.HEADER (inbox w)) = Ok [] ->
    exists w',
      Server.serve (S fuel) addr w = Some (Ok tt, w')
      /\ trace w'
         = trace w ++ [ERecv Server.HEADER (Ok []);
                       EPrint (ClosingFor addr); EClose].
Proof.
  intros fuel addr w H.
  eexists. split.
  - apply serve_last_pass.
    unfold Server.iteration, try_except, Server.try_block, bind, lift.
    rewrite recv_eq, H, bytes_decode_nil. reflexivity.
  - cbn [trace]. now rewrite <- app_assoc.
Qed.

(** A peer that has shut down without sending anything. *)
Lemma C5_peer_closed_cleanly_witness :
  exists w',
    Server.serve 1 (lit "10.0.0.7", 40000) (mkWorld [] [] []) = Some (Ok tt, w')
    /\ trace w'
       = [ERecv 64 (Ok []); EPrint (ClosingFor (lit "10.0.0.7", 40000)); EClose].
Proof.
  exact (C5_peer_closed_cleanly O (lit "10.0.0.7", 40000) (mkWorld [] [] [])
           eq_refl).
Defined.

(** C6.  Errors stay inside the handler.  For every connection:
    the handler returns normally (nothing is raised to its caller), its
    trace ends with the closing line and the one and only close, so nothing
    is done on the socket afterwards; and at the head of the loop, whatever
    the [try] block raises (a reset, a bad header, anything else) is met by
    an [except] clause that prints the line of that error and ends the
    loop, after which the handler only prints the closing line and
    closes. *)
Theorem C6_errors_contained :
  forall (addr : address) (w : world),
    (exists w' evs,
        Server.handle_client addr w = Some (Ok tt, w')
        /\ trace w'
           = trace w ++ EPrint (NewConnection addr) :: evs
                     ++ [EPrint (ClosingFor addr); EClose]
        /\ closes evs = O
        /\ closes (EPrint (NewConnection addr) :: evs
                   ++ [EPrint (ClosingFor addr); EClose]) = 1%nat)
    /\ (forall (e : exn) (w1 : world),
          Server.try_block addr w = (Raise e, w1) ->
          Server.iteration addr w
          = (Ok false, log (EPrint (error_line addr e)) w1)
          /\ forall fuel, exists w2,
              Server.serve (S fuel) addr w = Some (Ok tt, w2)
              /\ trace w2
                 = trace w1 ++ [EPrint (error_line addr e);
                                EPrint (ClosingFor addr); EClose]).
Proof.
  intros addr w. split.
  - destruct (handle_client_total addr w) as (w' & evs & H & Ht & Hc).
    exists w', evs. repeat split; try assumption.
    cbn [closes]. rewrite closes_app, Hc. reflexivity.
  - intros e w1 H.
    assert (Hit : Server.iteration addr w
                  = (Ok false, log (EPrint (error_line addr e)) w1)).
    { unfold Server.iteration, try_except. rewrite H.
      apply except_clauses_exception.
      eapply try_block_raises_exception; eassumption. }
    split; [assumption|].
    intro fuel. eexists. split; [apply serve_last_pass; eassumption|].
    unfold log. cbn [trace]. now rewrite <- app_assoc.
Qed.

(** A reset while the handler waits for a header. *)
Lemma C6_errors_contained_witness :
  exists w2,
    Server.serve 1 (lit "10.0.0.7", 40000) (mkWorld [RecvFault Reset] [] [])
    = Some (Ok tt, w2)
    /\ trace w2
       = [ERecv 64 (Raise ConnectionResetError);
          EPrint (ErrorReset (lit "10.0.0.7", 40000));
          EPrint (ClosingFor (lit "10.0.0.7", 40000)); EClose].
Proof.
  exact (proj2 (proj2 (C6_errors_contained (lit "10.0.0.7", 40000)
                         (mkWorld [RecvFault Reset] [] []))
                  ConnectionResetError
                  (mkWorld [] [] [ERecv 64 (Raise ConnectionResetError)])
                  eq_refl) O).
Defined.

(* ================================================================== *)
(** * The handler: a frame that decodes *)
(* ================================================================== *)

Section FramePass.

Variable addr : address.
Variable w : world.
Variables (header payload : bytes) (msg_length_header msg : str) (msg_length : Z).

Let i1 := snd (deliver Server.HEADER (inbox w)).
Let ack := lit "Message received".
Let r := fst (accept ack (outcomes w)).

Hypothesis Hheader : fst (deliver Server.HEADER (inbox w)) = Ok header.
Hypothesis Hdecode : bytes_decode header Server.FORMAT = Ok msg_length_header.
Hypothesis Hsome : truthy msg_length_header = true.
Hypothesis Hint : int msg_length_header = Ok msg_length.
Hypothesis Hpayload : fst (deliver msg_length i1) = Ok payload.
Hypothesis Hmsg : bytes_decode payload Server.FORMAT = Ok msg.

(** The pass over a frame whose header and payload both decode. *)
Lemma iteration_frame :
  Server.iteration addr w
  = (Ok (match r with
         | Ok _ => negb (str_eqb msg Server.MSG_DISCONNECT)
         | Raise _ => false
         end),
     mkWorld (snd (deliver msg_length i1)) (snd (accept ack (outcomes w)))
       (trace w ++ [ERecv Server.HEADER (Ok header);
                    ERecv msg_length (Ok payload);
                    EPrint (Received addr msg);
                    ESend ack r]
                ++ match r with
                   | Ok _ => []
                   | Raise e => [EPrint (error_line addr e)]
                   end)).
Proof.
  unfold Server.iteration, try_except, Server.try_block, bind, lift.
  rewrite recv_eq, Hheader, Hdecode, Hsome. cbn [negb].
  rewrite Hint, recv_eq. cbn [inbox outcomes trace]. fold i1.
  rewrite Hpayload, Hmsg.
  change (str_encode (lit "Message received") Server.FORMAT) with (Ok ack).
  unfold print, log. cbn [inbox outcomes trace].
  rewrite send_eq. cbn [inbox outcomes trace]. fold r.
  destruct (accept ack (outcomes w)) as [[k|e] o] eqn:Hacc;
    subst r; cbn [fst snd].
  - unfold ret. rewrite <- !app_assoc, app_nil_r.
    destruct (str_eqb msg Server.MSG_DISCONNECT); reflexivity.
  - rewrite (except_clauses_exception _ _ _ (accept_raise _ _ _ _ Hacc)).
    unfold log. cbn [inbox outcomes trace]. rewrite <- !app_assoc. reflexivity.
Qed.

End FramePass.

Lemma str_eqb_refl s : str_eqb s s = true.
Proof. induction s as [|c s IH]; [reflexivity|]. cbn. now rewrite Z.eqb_refl. Qed.

Lemma str_eqb_eq a b : str_eqb a b = true <-> a = b.
Proof.
  split; [|intros ->; apply str_eqb_refl].
  revert b; induction a as [|x a IH]; destruct b as [|y b]; cbn;
    try discriminate; [reflexivity|].
  intro H. apply andb_prop in H as [Hx Hab].
  apply Z.eqb_eq in Hx. subst. f_equal. now apply IH.
Qed.


(* ================================================================== *)
(** * Reading a frame *)
(* ================================================================== *)

Section Reads.

Lemma int_nil : int [] = Raise ValueError.
Proof. reflexivity. Qed.




Lemma decode_header_inv header n :
  decode_header header = Ok n ->
  exists h, bytes_decode header Server.FORMAT = Ok h
            /\ truthy h = true /\ int h = Ok n.
Proof.
  unfold decode_header.
  destruct (bytes_decode header Server.FORMAT) as [h|e]; [|discriminate].
  intro H. exists h. repeat split; [|assumption].
  destruct h; [rewrite int_nil in H; discriminate H | reflexivity].
Qed.

End Reads.





(* ================================================================== *)
(** * Decoding a header *)
(* ================================================================== *)

Section HeaderDecoding.

Lemma deliver_overflow n i :
  n < - PY_SSIZE_T_MAX - 1 -> deliver n i = (Raise OverflowError, i).
Proof.
  intro H. unfold deliver.
  destruct (Z.ltb_spec n (- PY_SSIZE_T_MAX - 1)); [reflexivity|lia].
Qed.

Lemma deliver_negative n i :
  - PY_SSIZE_T_MAX - 1 <= n < 0 -> deliver n i = (Raise ValueError, i).
Proof.
  intro H. unfold deliver.
  destruct (Z.ltb_spec n (- PY_SSIZE_T_MAX - 1)); [lia|].
  destruct (Z.ltb_spec PY_SSIZE_T_MAX n); [unfold PY_SSIZE_T_MAX in *; lia|].
  destruct (Z.ltb_spec n 0); [reflexivity|lia].
Qed.

(** The pass up to the payload read, for a header that decodes. *)
Lemma iteration_after_header addr w header h n :
  fst (deliver Server.HEADER (inbox w)) = Ok header ->
  bytes_decode header Server.FORMAT = Ok h ->
  truthy h = true ->
  int h = Ok n ->
  let w1 := mkWorld (snd (deliver Server.HEADER (inbox w))) (outcomes w)
              (trace w ++ [ERecv Server.HEADER (Ok header)]) in
  let w2 := mkWorld (snd (deliver n (inbox w1))) (outcomes w1)
              (trace w1 ++ [ERecv n (fst (deliver n (inbox w1)))]) in
  (forall e, fst (deliver n (inbox w1)) = Raise e ->
             Server.iteration addr w
             = (Ok false, log (EPrint (error_line addr e)) w2))
  /\ exists tail,
      trace (snd (Server.iteration addr w))
      = trace w1 ++ ERecv n (fst (deliver n (inbox w1))) :: tail.
Proof.
  intros Hh Hd Hs Hi w1 w2.
  unfold Server.iteration, try_except, Server.try_block, bind, lift.
  rewrite recv_eq, Hh, Hd, Hs. cbn [negb]. rewrite Hi, recv_eq.
  fold w1. fold w2.
  destruct (deliver n (inbox w1)) as [[payload|e] i2] eqn:Hp; cbn [fst snd].
  - split; [intros e He; discriminate He|].
    destruct (bytes_decode payload Server.FORMAT) as [msg|e] eqn:Hm.
    + change (str_encode (lit "Message received") Server.FORMAT)
        with (@Ok bytes (lit "Message received")).
      unfold print. rewrite send_eq.
      destruct (fst (accept _ _)) as [k|e] eqn:Ha.
      * unfold ret, log, w2. cbn [snd trace]. rewrite <- !app_assoc.
        eexists; reflexivity.
      * rewrite except_clauses_exception
          by (destruct (accept _ _) eqn:E in Ha; cbn in Ha; subst;
              eapply accept_raise; eassumption).
        unfold log, w2. cbn [snd trace]. rewrite <- !app_assoc.
        eexists; reflexivity.
    + rewrite except_clauses_exception
        by (apply bytes_decode_raise in Hm; now subst).
      unfold log, w2. cbn [snd trace]. rewrite <- !app_assoc.
      eexists; reflexivity.
  - rewrite (except_clauses_exception _ _ _ (deliver_raise _ _ _ _ Hp)).
    split; [intros e' He; inversion He; reflexivity|].
    unfold log, w2. cbn [snd trace]. rewrite <- !app_assoc.
    eexists; reflexivity.
Qed.

End HeaderDecoding.

(** C4, as the code has it.  A non-empty header is decoded by
    [int(header.decode(FORMAT))], with Python's reading of an integer
    (white space around it, a sign, single underscores between digits).
    A header in wire format, digits then spaces, decodes to the number it
    writes.  When the decoding raises, the pass takes the invalid-header
    clause right after the header read.  When it gives a negative length,
    the payload read refuses it and no payload is obtained: ValueError
    (the invalid-header clause) down to -2^63, OverflowError (the
    unexpected-error clause) below.  Any other length is what the payload
    read asks for. *)
Theorem C4_header_decoding :
  forall (addr : address) (w : world) (header : bytes),
    fst (deliver Server.HEADER (inbox w)) = Ok header ->
    header <> [] ->
    let w1 := mkWorld (snd (deliver Server.HEADER (inbox w))) (outcomes w)
                (trace w ++ [ERecv Server.HEADER (Ok header)]) in
    (forall n pad, 0 <= n -> header = wire_header n pad ->
                   decode_header header = Ok n)
    /\ match decode_header header with
       | Raise _ =>
           Server.iteration addr w
           = (Ok false, log (EPrint (ErrorInvalidHeader addr)) w1)
       | Ok n =>
           if n <? - PY_SSIZE_T_MAX - 1 then
             Server.iteration addr w
             = (Ok false,
                log (EPrint (UnexpectedError addr OverflowError))
                  (log (ERecv n (Raise OverflowError)) w1))
           else if n <? 0 then
             Server.iteration addr w
             = (Ok false,
                log (EPrint (ErrorInvalidHeader addr))
                  (log (ERecv n (Raise ValueError)) w1))
           else
             exists tail,
               trace (snd (Server.iteration addr w))
               = trace w1 ++ ERecv n (fst (deliver n (inbox w1))) :: tail
       end.
Proof.
  intros addr w header Hh Hne w1.
  split; [intros n pad Hn ->; now apply decode_wire_header|].
  unfold decode_header.
  destruct (bytes_decode header Server.FORMAT) as [h|e] eqn:Hd.
  - assert (Hs : truthy h = true).
    { destruct h; [apply bytes_decode_nil_inv in Hd; contradiction|reflexivity]. }
    destruct (int h) as [n|e] eqn:Hi.
    + destruct (iteration_after_header addr w header h n Hh Hd Hs Hi)
        as [Hraise Htail].
      fold w1 in Hraise, Htail.
      destruct (Z.ltb_spec n (- PY_SSIZE_T_MAX - 1)) as [Hlow|Hlow].
      * rewrite (Hraise OverflowError)
          by (cbn [inbox]; now rewrite deliver_overflow).
        cbn [inbox]. rewrite deliver_overflow by assumption. reflexivity.
      * destruct (Z.ltb_spec n 0) as [Hneg|Hneg]; [|exact Htail].
        rewrite (Hraise ValueError)
          by (cbn [inbox]; now rewrite deliver_negative).
        cbn [inbox]. rewrite deliver_negative by lia. reflexivity.
    + apply int_raise in Hi as Hv. subst e.
      unfold Server.iteration, try_except, Server.try_block, bind, lift.
      rewrite recv_eq, Hh, Hd, Hs. cbn [negb]. rewrite Hi. reflexivity.
  - apply bytes_decode_raise in Hd as Hv. subst e.
    unfold Server.iteration, try_except, Server.try_block, bind, lift.
    rewrite recv_eq, Hh, Hd. reflexivity.
Qed.

(** C4 fails.  (a) A header that writes a number below -2^63 does not take
    the invalid-header clause: [int] accepts it, [recv] raises
    OverflowError, and the unexpected-error clause runs.  (b) The header
    "1_0" is no decimal integer, yet it decodes to 10 and ten bytes of
    payload are read for it. *)
Lemma C4_not_always_invalid_header :
  let addr := (lit "10.0.0.7", 40000) in
  let low := lit "-99999999999999999999" ++ repeat 32 43 in
  let underscore := lit "1_0" ++ repeat 32 61 in
  length low = 64%nat
  /\ decode_header low = Ok (-99999999999999999999)
  /\ trace (snd (Server.iteration addr (mkWorld [Data low] [] [])))
     = [ERecv 64 (Ok low);
        ERecv (-99999999999999999999) (Raise OverflowError);
        EPrint (UnexpectedError addr OverflowError)]
  /\ length underscore = 64%nat
  /\ decode_header underscore = Ok 10
  /\ trace (snd (Server.iteration addr
              (mkWorld [Data (underscore ++ lit "0123456789")] [] [])))
     = [ERecv 64 (Ok underscore);
        ERecv 10 (Ok (lit "0123456789"));
        EPrint (Received addr (lit "0123456789"));
        ESend (lit "Message received") (Ok 16)].
Proof. repeat split; vm_compute; reflexivity. Qed.

(** The header "-5": the invalid-header clause, by way of [recv]. *)
Lemma C4_header_decoding_witness :
  let addr := (lit "10.0.0.7", 40000) in
  let header := lit "-5" ++ repeat 32 62 in
  Server.iteration addr (mkWorld [Data header] [] [])
  = (Ok false,
     mkWorld [] []
       [ERecv 64 (Ok header); ERecv (-5) (Raise ValueError);
        EPrint (ErrorInvalidHeader addr)]).
Proof.
  intros addr header.
  exact (proj2 (C4_header_decoding addr (mkWorld [Data header] [] []) header
                  eq_refl ltac:(discriminate))).
Defined.

(* ================================================================== *)
(** * The client's loop *)
(* ================================================================== *)

(** One case split per call of [Client.send]. *)
Ltac send_step :=
  match goal with
  | |- context [accept ?X ?Y] =>
      let Hacc := fresh "Hacc" in
      destruct (accept X Y) as [[?k|?e] ?o] eqn:Hacc; cbv beta iota zeta
  | |- context [deliver ?X ?Y] =>
      let Hd := fresh "Hd" in
      destruct (deliver X Y) as [[?response|?e] ?i] eqn:Hd; cbv beta iota zeta
  | |- context [bytes_decode ?X ?Y] =>
      let Hdec := fresh "Hdec" in
      destruct (bytes_decode X Y) as [?text|?e] eqn:Hdec; cbv beta iota zeta
  | |- context [is_ConnectionResetError ?X || is_BrokenPipeError ?X] =>
      destruct (is_ConnectionResetError X || is_BrokenPipeError X);
      cbv beta iota zeta
  end.

Ltac send_cases :=
  unfold Client.send, try_except, bind, lift, recv, World.send, print, ret,
    raise;
  cbv beta iota zeta;
  repeat send_step.

Section ClientLoop.

Lemma utf8_char_nonempty c b : utf8_char c = Some b -> b <> [].
Proof.
  unfold utf8_char.
  repeat match goal with
         | |- context [if ?c then _ else _] => destruct c
         end; intro H; inversion H; discriminate.
Qed.

Lemma str_encode_nonempty msg enc message :
  msg <> [] -> str_encode msg enc = Ok message -> 1 <= len message.
Proof.
  destruct enc. unfold str_encode.
  destruct msg as [|c msg]; [contradiction|]. intros _. cbn [utf8_encode].
  destruct (utf8_char c) as [b|] eqn:Hc; [|discriminate].
  destruct (utf8_encode msg) as [bs|]; [|discriminate].
  intro H. inversion H. apply utf8_char_nonempty in Hc.
  destruct b; [contradiction|]. unfold len. cbn [app length]. lia.
Qed.

Lemma str_encode_raise msg enc e :
  str_encode msg enc = Raise e -> e = UnicodeEncodeError.
Proof.
  destruct enc; unfold str_encode.
  destruct (utf8_encode msg); intro H; inversion H; reflexivity.
Qed.

(** [send] never closes the socket. *)
Lemma client_send_closes msg w :
  closes (trace (snd (Client.send msg w))) = closes (trace w).
Proof.
  unfold Client.send, try_except, bind, lift.
  destruct (str_encode msg Client.FORMAT) as [message|e];
    [|destruct e; cbn; rewrite ?closes_app; cbn [closes]; lia].
  rewrite str_encode_str_int.
  send_cases.
  all: unfold log; cbn [snd trace inbox outcomes];
    rewrite ?closes_app; cbn [closes]; lia.
Qed.

(** What one [send] of a non-empty message hands to the socket. *)
Lemma client_send_frames msg w :
  msg <> [] ->
  exists l,
    sends (trace (snd (Client.send msg w))) = sends (trace w) ++ l
    /\ positive_frames l
    /\ (fst (Client.send msg w) = Ok true -> exists h m, l = [h; m]).
Proof.
  intro Hne.
  unfold Client.send, try_except, bind, lift.
  destruct (str_encode msg Client.FORMAT) as [message|e] eqn:Henc.
  2:{ apply str_encode_raise in Henc. subst e. exists [].
      cbn. rewrite app_nil_r. repeat split. intro H; discriminate H. }
  pose proof (str_encode_nonempty msg _ message Hne Henc) as Hlen.
  rewrite str_encode_str_int. fold (client_header message).
  pose proof (decode_client_header message) as Hdh.
  rewrite (send_eq (client_header message) w).
  destruct (accept (client_header message) (outcomes w)) as [[k|e] o] eqn:Ha;
    cbn [fst snd].
  2:{ exists [client_header message].
      destruct (is_ConnectionResetError e || is_BrokenPipeError e) eqn:Hc;
        unfold print, ret, raise, bind, log;
        cbn [fst snd trace inbox outcomes];
        rewrite ?sends_app; cbn [sends]; rewrite ?app_nil_r;
        (split; [reflexivity|]);
        (split; [exists (len message); auto | intro H; discriminate H]). }
  exists [client_header message; message].
  send_cases.
  all: unfold log; cbn [fst snd trace inbox outcomes];
    rewrite ?sends_app; cbn [sends]; rewrite ?app_nil_r, <- ?app_assoc;
    (split; [reflexivity|]);
    (split; [cbn [positive_frames]; auto | intros _; eauto]).
Qed.

(** One round of the loop on a line of input. *)
Lemma main_loop_line message rest w :
  Client.main_loop (Client.Line message :: rest) w
  = let w1 := log (EInput (Ok message)) w in
    if truthy message then
      match Client.send message w1 with
      | (Ok true, w2) =>
          if str_eqb message Client.MSG_DISCONNECT then (Ok tt, w2)
          else Client.main_loop rest w2
      | (Ok false, w2) => (Ok tt, w2)
      | (Raise e, w2) => (Raise e, w2)
      end
    else Client.main_loop rest w1.
Proof.
  cbn [Client.main_loop]. cbv zeta. unfold bind, ret.
  destruct (truthy message); [|reflexivity].
  destruct (Client.send message (log (EInput (Ok message)) w))
    as [[[|]|e] w2]; cbn [negb]; try reflexivity.
  destruct (str_eqb message Client.MSG_DISCONNECT); reflexivity.
Qed.

(** The loop never closes the socket. *)
Lemma main_loop_closes stdin :
  forall w, closes (trace (snd (Client.main_loop stdin w))) = closes (trace w).
Proof.
  induction stdin as [|[message|] rest IH]; intro w.
  - cbn. rewrite closes_app. cbn. lia.
  - rewrite main_loop_line. cbv zeta.
    assert (H1 : closes (trace (log (EInput (Ok message)) w)) = closes (trace w))
      by (cbn; rewrite closes_app; cbn; lia).
    destruct (truthy message); [|now rewrite IH].
    pose proof (client_send_closes message (log (EInput (Ok message)) w)) as Hs.
    destruct (Client.send message (log (EInput (Ok message)) w))
      as [[[|]|e] w2]; cbn [snd] in *; try lia.
    destruct (str_eqb message Client.MSG_DISCONNECT); cbn [snd];
      [lia | rewrite IH; lia].
  - cbn. rewrite closes_app. cbn. lia.
Qed.

Lemma positive_frames_app h m l :
  positive_frames [h; m] -> positive_frames l -> positive_frames ([h; m] ++ l).
Proof. cbn. tauto. Qed.

(** All that the loop hands to the socket. *)
Lemma main_loop_frames stdin :
  forall w, exists l,
    sends (trace (snd (Client.main_loop stdin w))) = sends (trace w) ++ l
    /\ positive_frames l.
Proof.
  induction stdin as [|[message|] rest IH]; intro w.
  - exists []. cbn. rewrite sends_app. cbn. auto.
  - rewrite main_loop_line. cbv zeta.
    assert (H1 : sends (trace (log (EInput (Ok message)) w)) = sends (trace w))
      by (cbn; rewrite sends_app; cbn; apply app_nil_r).
    destruct (truthy message) eqn:Ht.
    2:{ destruct (IH (log (EInput (Ok message)) w)) as (l & Hl & Hp).
        exists l. split; [|exact Hp]. rewrite <- H1. exact Hl. }
    assert (Hne : message <> []) by (intros ->; discriminate Ht).
    destruct (client_send_frames message (log (EInput (Ok message)) w) Hne)
      as (l & Hl & Hp & Htrue).
    rewrite H1 in Hl.
    destruct (Client.send message (log (EInput (Ok message)) w))
      as [[[|]|e] w2]; cbn [fst snd] in *; try (exists l; auto; fail).
    destruct (str_eqb message Client.MSG_DISCONNECT); [exists l; auto|].
    destruct (Htrue eq_refl) as (h & m & ->).
    destruct (IH w2) as (l' & Hl' & Hp').
    exists ([h; m] ++ l'). split.
    + now rewrite Hl', Hl, app_assoc.
    + now apply positive_frames_app.
  - exists []. cbn. rewrite sends_app. cbn. auto.
Qed.

(** The loop is left by [break] only after a [send]: one that returned
    False, or one that returned True for the sentinel. *)
Lemma main_loop_break stdin :
  forall w,
    fst (Client.main_loop stdin w) = Ok tt ->
    exists message w1,
      In (Client.Line message) stdin
      /\ message <> []
      /\ (fst (Client.send message w1) = Ok false
          \/ (fst (Client.send message w1) = Ok true
              /\ message = Client.MSG_DISCONNECT)).
Proof.
  induction stdin as [|[message|] rest IH]; intros w H;
    [discriminate H| |discriminate H].
  rewrite main_loop_line in H. cbv zeta in H.
  destruct (truthy message) eqn:Ht.
  2:{ destruct (IH _ H) as (m & w1 & Hin & Hm). exists m, w1.
      split; [now right|exact Hm]. }
  assert (Hne : message <> []) by (intros ->; discriminate Ht).
  destruct (Client.send message (log (EInput (Ok message)) w))
    as [[[|]|e] w2] eqn:Hs; [| |discriminate H].
  - destruct (str_eqb message Client.MSG_DISCONNECT) eqn:Heq.
    + exists message, (log (EInput (Ok message)) w).
      split; [now left|]. split; [exact Hne|]. right.
      rewrite Hs. split; [reflexivity|now apply str_eqb_eq].
    + destruct (IH _ H) as (m & w1 & Hin & Hm). exists m, w1.
      split; [now right|exact Hm].
  - exists message, (log (EInput (Ok message)) w).
    split; [now left|]. split; [exact Hne|]. left. now rewrite Hs.
Qed.

End ClientLoop.

(** C7.  One round of the client's loop on a line [message] of input.
    An empty line: nothing but the prompt happens and the loop goes on to
    the next line.  A non-empty line: [send] is called, and the loop goes on
    only when it returned True for a line that is not the sentinel; when
    nothing fails, [send] hands the socket the header, then the payload,
    then reads up to 2048 bytes and prints them.  The sentinel
    "!Disconnect": the loop ends with that call of [send], whatever it
    returned or raised. *)
Theorem C7_client_loop_round :
  forall (message : str) (rest : list Client.input_event) (w : world),
    let w1 := log (EInput (Ok message)) w in
    (message = [] ->
     Client.main_loop (Client.Line message :: rest) w = Client.main_loop rest w1)
    /\ (message <> [] ->
        Client.main_loop (Client.Line message :: rest) w
        = match Client.send message w1 with
          | (Ok true, w2) =>
              if str_eqb message Client.MSG_DISCONNECT then (Ok tt, w2)
              else Client.main_loop rest w2
          | (Ok false, w2) => (Ok tt, w2)
          | (Raise e, w2) => (Raise e, w2)
          end)
    /\ (forall encoded response text,
           str_encode message Client.FORMAT = Ok encoded ->
           accepting 2 (outcomes w1) ->
           fst (deliver 2048 (inbox w1)) = Ok response ->
           bytes_decode response Client.FORMAT = Ok text ->
           exists w2,
             Client.send message w1 = (Ok true, w2)
             /\ trace w2
                = trace w1
                  ++ [ESend (client_header encoded) (Ok (len (client_header encoded)));
                      ESend encoded (Ok (len encoded));
                      ERecv 2048 (Ok response);
                      EPrint (ServerSaid text)])
    /\ (message = Client.MSG_DISCONNECT ->
        Client.main_loop (Client.Line message :: rest) w
        = (match fst (Client.send message w1) with
           | Ok _ => Ok tt
           | Raise e => Raise e
           end,
           snd (Client.send message w1))).
Proof.
  intros message rest w w1.
  pose proof (main_loop_line message rest w) as Hline. cbv zeta in Hline.
  fold w1 in Hline.
  split; [intros ->; exact Hline|].
  split.
  { intro Hne. rewrite Hline.
    destruct message; [contradiction|reflexivity]. }
  split.
  { intros encoded response text Henc Hacc Hr Hd.
    eexists. split; [now apply (client_send_success message encoded response text)|].
    reflexivity. }
  intros ->. rewrite Hline. cbn [truthy Client.MSG_DISCONNECT].
  change (lit "!Disconnect") with Client.MSG_DISCONNECT.
  rewrite str_eqb_refl.
  destruct (Client.send Client.MSG_DISCONNECT w1) as [[[|]|e] w2]; reflexivity.
Qed.

(** The sentinel typed while further lines are waiting. *)
Lemma C7_client_loop_round_witness :
  let w := mkWorld [Data (lit "Message received")] [] [] in
  Client.main_loop [Client.Line Client.MSG_DISCONNECT; Client.Line (lit "more")] w
  = (Ok tt,
     mkWorld [] []
       [EInput (Ok Client.MSG_DISCONNECT);
        ESend (wire_header 11 62) (Ok 64);
        ESend Client.MSG_DISCONNECT (Ok 11);
        ERecv 2048 (Ok (lit "Message received"));
        EPrint (ServerSaid (lit "Message received"))]).
Proof.
  intro w.
  exact (proj2 (proj2 (proj2
           (C7_client_loop_round Client.MSG_DISCONNECT
              [Client.Line (lit "more")] w))) eq_refl).
Defined.

(* ================================================================== *)
(** * The client's exits *)
(* ================================================================== *)
(** C8, as the code has it.  The cleanup comes after the loop, with no
    guard around the loop.  When the loop is left by [break], which happens
    only after a [send] that returned False (the connection was lost) or
    that sent the sentinel, the script prints the closing line and closes
    the socket: exactly once more than before, and as its last action.
    When an exception leaves the loop the script ends there, and the socket
    is not closed. *)
Theorem C8_close_on_break_only :
  forall (stdin : list Client.input_event) (w : world),
    match Client.main stdin w with
    | (Ok _, w') =>
        closes (trace w') = S (closes (trace w))
        /\ (exists t, trace w' = t ++ [EPrint Closing; EClose])
        /\ (exists message w1,
               In (Client.Line message) stdin
               /\ message <> []
               /\ (fst (Client.send message w1) = Ok false
                   \/ (fst (Client.send message w1) = Ok true
                       /\ message = Client.MSG_DISCONNECT)))
    | (Raise _, w') => closes (trace w') = closes (trace w)
    end.
Proof.
  intros stdin w.
  unfold Client.main, bind, print, close.
  pose proof (main_loop_closes stdin (log (EPrint Banner) w)) as Hc.
  pose proof (main_loop_break stdin (log (EPrint Banner) w)) as Hb.
  destruct (Client.main_loop stdin (log (EPrint Banner) w)) as [[[]|e] w1];
    cbn [fst snd] in Hc, Hb; unfold log in *; cbn [trace] in *;
    rewrite ?closes_app in *; cbn [closes] in *.
  - split; [lia|]. split; [|exact (Hb eq_refl)].
    eexists. rewrite <- app_assoc. reflexivity.
  - lia.
Qed.

(** C8 fails.  The operator's input ends at the first prompt, or is
    interrupted there: the exception leaves the loop and the script, and the
    socket is never closed. *)
Lemma C8_exception_exit_never_closes :
  let w := mkWorld [] [] [] in
  Client.main [] w
  = (Raise EOFError,
     mkWorld [] [] [EPrint Banner; EInput (Raise EOFError)])
  /\ Client.main [Client.Interrupt] w
     = (Raise KeyboardInterrupt,
        mkWorld [] [] [EPrint Banner; EInput (Raise KeyboardInterrupt)])
  /\ closes (trace (snd (Client.main [] w))) = O
  /\ closes (trace (snd (Client.main [Client.Interrupt] w))) = O.
Proof. repeat split; vm_compute; reflexivity. Qed.

(** The two [break] exits, each closing once: a send that lost the
    connection, and the sentinel. *)
Example client_breaks_close_once :
  closes (trace (snd (Client.main [Client.Line (lit "hi")]
                        (mkWorld [] [SendFault Pipe] [])))) = 1%nat
  /\ closes (trace (snd (Client.main [Client.Line Client.MSG_DISCONNECT]
                           (mkWorld [Data (lit "Message received")] [] []))))
     = 1%nat.
Proof. split; vm_compute; reflexivity. Qed.

(** An OSError that is neither a reset nor a broken pipe (an aborted
    connection, a timeout) is not met by the clause of [send]: it leaves
    [send], the loop and the script. *)
Example client_send_other_oserror_escapes :
  Client.main [Client.Line (lit "hi")] (mkWorld [] [SendFault OtherOS] [])
  = (Raise OSError,
     mkWorld [] []
       [EPrint Banner; EInput (Ok (lit "hi"));
        ESend (wire_header 2 63) (Raise OSError)]).
Proof. vm_compute; reflexivity. Qed.

(** C10.  Whatever the operator types and whatever the network does, the
    byte strings the client hands to [send] are frames whose payload has at
    least one byte and whose header decodes to that length, a strictly
    positive integer. *)
Theorem C10_no_empty_frame :
  forall (stdin : list Client.input_event) (w : world),
  exists l : list bytes,
    sends (trace (snd (Client.main stdin w))) = sends (trace w) ++ l
    /\ positive_frames l.
Proof.
  intros stdin w.
  destruct (main_loop_frames stdin (log (EPrint Banner) w)) as (l & Hl & Hp).
  exists l. split; [|exact Hp].
  unfold Client.main, bind, print, close.
  destruct (Client.main_loop stdin (log (EPrint Banner) w)) as [[u|e] w1];
    cbn [snd] in *; unfold log in *; cbn [trace] in *;
    rewrite ?sends_app in *; cbn [sends] in *; rewrite ?app_nil_r in *;
    exact Hl.
Qed.

(* ================================================================== *)
(** * The two ends together *)
(* ================================================================== *)

(** The client sends "hello" and then the sentinel; the handler, given what
    the client sent as one chunk per send, prints both messages,
    acknowledges both and closes. *)
Example hello_then_disconnect :
  let addr := (lit "127.0.0.1", 50000) in
  let client :=
    snd (Client.main [Client.Line (lit "hello");
                      Client.Line Client.MSG_DISCONNECT]
           (mkWorld [Data (lit "Message received");
                     Data (lit "Message received")] [] [])) in
  let server :=
    Server.handle_client addr
      (mkWorld (map Data (sends (trace client))) [] []) in
  sends (trace client)
  = [wire_header 5 63; lit "hello"; wire_header 11 62; Client.MSG_DISCONNECT]
  /\ closes (trace client) = 1%nat
  /\ exists w',
      server = Some (Ok tt, w')
      /\ trace w'
         = [EPrint (NewConnection addr);
            ERecv 64 (Ok (wire_header 5 63));
            ERecv 5 (Ok (lit "hello"));
            EPrint (Received addr (lit "hello"));
            ESend (lit "Message received") (Ok 16);
            ERecv 64 (Ok (wire_header 11 62));
            ERecv 11 (Ok Client.MSG_DISCONNECT);
            EPrint (Received addr Client.MSG_DISCONNECT);
            ESend (lit "Message received") (Ok 16);
            EPrint (ClosingFor addr); EClose].
Proof.
  cbv zeta. split; [vm_compute; reflexivity|].
  split; [vm_compute; reflexivity|].
  eexists. split; vm_compute; reflexivity.
Qed.


Lemma range_check (P : Z -> bool) (n : nat) :
  forallb P (map Z.of_nat (seq 0 n)) = true ->
  forall x, 0 <= x < Z.of_nat n -> P x = true.
Proof.
  intros H x Hx. rewrite forallb_forall in H. apply H.
  apply in_map_iff. exists (Z.to_nat x). split; [lia|].
  apply in_seq. lia.
Qed.

Lemma lor_shiftl_add a b n :
  0 <= n -> 0 <= a -> 0 <= b < 2 ^ n ->
  Z.lor (Z.shiftl a n) b = a * 2 ^ n + b.
Proof.
  intros Hn Ha Hb.
  rewrite Z.shiftl_mul_pow2 by assumption.
  assert (H0 : Z.land (a * 2 ^ n) b = 0).
  2:{ now rewrite <- Z.lxor_lor, <- Z.add_nocarry_lxor. }
  apply Z.bits_inj'. intros i Hi.
  rewrite Z.land_spec, Z.bits_0.
  destruct (Z.lt_ge_cases i n) as [Hlt|Hge].
  - rewrite Z.mul_pow2_bits_low by assumption. reflexivity.
  - destruct (Z.eq_dec b 0) as [->|Hb0]; [now rewrite Z.bits_0, andb_false_r|].
    rewrite (Z.bits_above_log2 b i), andb_false_r; [reflexivity|lia|].
    apply Z.log2_lt_pow2; [lia|].
    pose proof (Z.pow_le_mono_r 2 n i ltac:(lia) Hge). lia.
Qed.

Lemma cont_byte x :
  0 <= x < 64 ->
  Z.lor 128 x = 128 + x /\ Z.land (128 + x) 63 = x.
Proof.
  intro H.
  pose proof (range_check
    (fun x => (Z.lor 128 x =? 128 + x) && (Z.land (128 + x) 63 =? x)) 64
    eq_refl x H) as E.
  apply andb_prop in E as [E1 E2]. split; now apply Z.eqb_eq.
Qed.

Lemma lead2 y : 0 <= y < 32 -> Z.lor 192 y = 192 + y /\ Z.land (192 + y) 31 = y.
Proof.
  intro H.
  pose proof (range_check
    (fun y => (Z.lor 192 y =? 192 + y) && (Z.land (192 + y) 31 =? y)) 32
    eq_refl y H) as E.
  apply andb_prop in E as [E1 E2]. split; now apply Z.eqb_eq.
Qed.

Lemma lead3 y : 0 <= y < 16 -> Z.lor 224 y = 224 + y /\ Z.land (224 + y) 15 = y.
Proof.
  intro H.
  pose proof (range_check
    (fun y => (Z.lor 224 y =? 224 + y) && (Z.land (224 + y) 15 =? y)) 16
    eq_refl y H) as E.
  apply andb_prop in E as [E1 E2]. split; now apply Z.eqb_eq.
Qed.

Lemma lead4 y : 0 <= y < 8 -> Z.lor 240 y = 240 + y /\ Z.land (240 + y) 7 = y.
Proof.
  intro H.
  pose proof (range_check
    (fun y => (Z.lor 240 y =? 240 + y) && (Z.land (240 + y) 7 =? y)) 8
    eq_refl y H) as E.
  apply andb_prop in E as [E1 E2]. split; now apply Z.eqb_eq.
Qed.

Lemma low6 c : Z.land c 63 = c mod 64.
Proof. exact (Z.land_ones c 6 ltac:(lia)). Qed.

Lemma shr c n : 0 <= n -> Z.shiftr c n = c / 2 ^ n.
Proof. apply Z.shiftr_div_pow2. Qed.


Lemma some_inj {A} (x y : A) : Some x = Some y -> x = y.
Proof. intro H. exact (f_equal (fun o => match o with Some z => z | None => x end) H). Qed.

Ltac decide_test :=
  match goal with
  | |- context [?a <=? ?b] => destruct (Z.leb_spec a b); [|lia]
  | |- context [?a <=? ?b] => destruct (Z.leb_spec a b); [lia|]
  | |- context [?a <? ?b] => destruct (Z.ltb_spec a b); [|lia]
  | |- context [?a <? ?b] => destruct (Z.ltb_spec a b); [lia|]
  end; cbn [andb negb].

Lemma utf8_decode_1 c rest :
  0 <= c < 128 ->
  utf8_decode ([c] ++ rest) = option_map (cons c) (utf8_decode rest).
Proof. intro H. cbn [app utf8_decode]. repeat decide_test. reflexivity. Qed.

Lemma utf8_decode_2 c rest :
  128 <= c < 2048 ->
  utf8_decode ([Z.lor 192 (Z.shiftr c 6); Z.lor 128 (Z.land c 63)] ++ rest)
  = option_map (cons c) (utf8_decode rest).
Proof.
  intro H. rewrite !low6, !shr by lia. change (2 ^ 6) with 64.
  assert (H6 : 0 <= c mod 64 < 64) by (apply Z.mod_pos_bound; lia).
  assert (Hh : 2 <= c / 64 < 32) by (Z.div_mod_to_equations; lia).
  destruct (cont_byte (c mod 64) H6) as [-> L1].
  destruct (lead2 (c / 64) ltac:(lia)) as [-> L2].
  cbn [app utf8_decode]. unfold is_cont. repeat decide_test.
  rewrite L1, L2, lor_shiftl_add by lia.
  replace (c / 64 * 2 ^ 6 + c mod 64) with c
    by (change (2 ^ 6) with 64; Z.div_mod_to_equations; lia).
  reflexivity.
Qed.

Lemma utf8_decode_cons b1 t1 :
  utf8_decode (b1 :: t1)
  = if (0 <=? b1) && (b1 <? 128) then option_map (cons b1) (utf8_decode t1)
    else if (194 <=? b1) && (b1 <=? 223) then
      match t1 with
      | b2 :: t2 =>
          if is_cont b2 then
            option_map (cons (Z.lor (Z.shiftl (Z.land b1 31) 6) (Z.land b2 63)))
                       (utf8_decode t2)
          else None
      | _ => None
      end
    else if (224 <=? b1) && (b1 <=? 239) then
      match t1 with
      | b2 :: b3 :: t3 =>
          let c := Z.lor (Z.shiftl (Z.land b1 15) 12)
                     (Z.lor (Z.shiftl (Z.land b2 63) 6) (Z.land b3 63)) in
          if is_cont b2 && is_cont b3 && (2048 <=? c)
             && negb ((55296 <=? c) && (c <=? 57343))
          then option_map (cons c) (utf8_decode t3)
          else None
      | _ => None
      end
    else if (240 <=? b1) && (b1 <=? 244) then
      match t1 with
      | b2 :: b3 :: b4 :: t4 =>
          let c := Z.lor (Z.shiftl (Z.land b1 7) 18)
                     (Z.lor (Z.shiftl (Z.land b2 63) 12)
                        (Z.lor (Z.shiftl (Z.land b3 63) 6) (Z.land b4 63))) in
          if is_cont b2 && is_cont b3 && is_cont b4
             && (65536 <=? c) && (c <? 1114112)
          then option_map (cons c) (utf8_decode t4)
          else None
      | _ => None
      end
    else None.
Proof. reflexivity. Qed.

Lemma utf8_decode_3 c rest :
  2048 <= c < 65536 -> ~ (55296 <= c <= 57343) ->
  utf8_decode ([Z.lor 224 (Z.shiftr c 12);
                Z.lor 128 (Z.land (Z.shiftr c 6) 63);
                Z.lor 128 (Z.land c 63)] ++ rest)
  = option_map (cons c) (utf8_decode rest).
Proof.
  intros H Hs. rewrite !low6, !shr by lia.
  change (2 ^ 6) with 64. change (2 ^ 12) with 4096.
  assert (Hl : 0 <= c mod 64 < 64) by (apply Z.mod_pos_bound; lia).
  assert (Hm : 0 <= (c / 64) mod 64 < 64) by (apply Z.mod_pos_bound; lia).
  assert (Hh : 0 <= c / 4096 < 16) by (Z.div_mod_to_equations; lia).
  assert (Hc : c = c / 4096 * 4096 + ((c / 64) mod 64 * 64 + c mod 64))
    by (Z.div_mod_to_equations; lia).
  destruct (cont_byte (c mod 64) Hl) as [-> L1].
  destruct (cont_byte ((c / 64) mod 64) Hm) as [-> L2].
  destruct (lead3 (c / 4096) Hh) as [-> L3].
  cbn [app]. rewrite utf8_decode_cons. repeat decide_test.
  cbv zeta. unfold is_cont.
  rewrite L1, L2, L3.
  rewrite (lor_shiftl_add ((c / 64) mod 64) (c mod 64) 6) by lia.
  rewrite lor_shiftl_add by (change (2 ^ 6) with 64; change (2 ^ 12) with 4096; lia).
  change (2 ^ 6) with 64. change (2 ^ 12) with 4096. rewrite <- Hc.
  repeat decide_test.
  destruct (Z.leb_spec 55296 c); destruct (Z.leb_spec c 57343);
    cbn [andb negb]; try lia; reflexivity.
Qed.

Lemma utf8_decode_4 c rest :
  65536 <= c < 1114112 ->
  utf8_decode ([Z.lor 240 (Z.shiftr c 18);
                Z.lor 128 (Z.land (Z.shiftr c 12) 63);
                Z.lor 128 (Z.land (Z.shiftr c 6) 63);
                Z.lor 128 (Z.land c 63)] ++ rest)
  = option_map (cons c) (utf8_decode rest).
Proof.
  intros H. rewrite !low6, !shr by lia.
  change (2 ^ 6) with 64. change (2 ^ 12) with 4096. change (2 ^ 18) with 262144.
  assert (Hl : 0 <= c mod 64 < 64) by (apply Z.mod_pos_bound; lia).
  assert (Hm : 0 <= (c / 64) mod 64 < 64) by (apply Z.mod_pos_bound; lia).
  assert (Hn : 0 <= (c / 4096) mod 64 < 64) by (apply Z.mod_pos_bound; lia).
  assert (Hh : 0 <= c / 262144 < 5) by (Z.div_mod_to_equations; lia).
  assert (Hc : c = c / 262144 * 262144
                   + ((c / 4096) mod 64 * 4096
                      + ((c / 64) mod 64 * 64 + c mod 64)))
    by (Z.div_mod_to_equations; lia).
  destruct (cont_byte (c mod 64) Hl) as [-> L1].
  destruct (cont_byte ((c / 64) mod 64) Hm) as [-> L2].
  destruct (cont_byte ((c / 4096) mod 64) Hn) as [-> L3].
  destruct (lead4 (c / 262144) ltac:(lia)) as [-> L4].
  cbn [app]. rewrite utf8_decode_cons. repeat decide_test.
  cbv zeta. unfold is_cont.
  rewrite L1, L2, L3, L4.
  rewrite (lor_shiftl_add ((c / 64) mod 64) (c mod 64) 6) by lia.
  change (2 ^ 6) with 64.
  rewrite (lor_shiftl_add ((c / 4096) mod 64) _ 12)
    by (change (2 ^ 12) with 4096; lia).
  change (2 ^ 12) with 4096.
  rewrite lor_shiftl_add by (change (2 ^ 18) with 262144; lia).
  change (2 ^ 18) with 262144. rewrite <- Hc.
  repeat decide_test. reflexivity.
Qed.

(** One character: what [utf8_char] writes, [utf8_decode] reads back. *)
Lemma utf8_decode_char c b rest :
  utf8_char c = Some b ->
  utf8_decode (b ++ rest) = option_map (cons c) (utf8_decode rest).
Proof.
  unfold utf8_char.
  destruct (Z.ltb_spec c 0); [discriminate|].
  destruct (Z.ltb_spec c 128).
  { intro E. apply some_inj in E. subst b. apply utf8_decode_1. lia. }
  destruct (Z.ltb_spec c 2048).
  { intro E. apply some_inj in E. subst b. apply utf8_decode_2. lia. }
  destruct (Z.ltb_spec c 65536).
  { destruct (Z.leb_spec 55296 c); destruct (Z.leb_spec c 57343); cbn [andb];
      try discriminate;
      intro E; apply some_inj in E; subst b; apply utf8_decode_3; lia. }
  destruct (Z.ltb_spec c 1114112); [|discriminate].
  intro E. apply some_inj in E. subst b. apply utf8_decode_4. lia.
Qed.

Lemma utf8_round_trip s : forall b,
  utf8_encode s = Some b -> utf8_decode b = Some s.
Proof.
  induction s as [|c s IH]; intros b H.
  - apply some_inj in H. now subst b.
  - cbn [utf8_encode] in H.
    destruct (utf8_char c) as [bc|] eqn:Hc; [|discriminate H].
    destruct (utf8_encode s) as [bs|] eqn:Hs; [|discriminate H].
    apply some_inj in H. subst b.
    rewrite (utf8_decode_char c bc bs Hc), (IH bs eq_refl). reflexivity.
Qed.


(* ================================================================== *)
(** * The handler on a stream of frames *)
(* ================================================================== *)

Section Stream.

Lemma digits_le_length fuel : forall n, (length (digits_le fuel n) <= fuel)%nat.
Proof.
  induction fuel as [|f IH]; intro n; [cbn; lia|].
  cbn [digits_le length].
  destruct (n / 10 =? 0); [cbn; lia|]. specialize (IH (n / 10)). lia.
Qed.

(** The length of anything that fits in memory fits in the header. *)
Lemma header_fits n :
  0 <= n <= PY_SSIZE_T_MAX -> (length (str_int n) <= 64)%nat.
Proof.
  intros [Hn Hmax]. rewrite str_int_nonneg by assumption.
  unfold str_nat. rewrite length_rev.
  pose proof (digits_le_length (S (Z.to_nat (Z.log2 n))) n) as Hl.
  assert (Z.log2 n < 63).
  { destruct (Z.eq_dec n 0) as [->|Hz]; [cbn; lia|].
    apply Z.log2_lt_pow2; [lia|]. unfold PY_SSIZE_T_MAX in Hmax. lia. }
  pose proof (Z.log2_nonneg n). lia.
Qed.

Lemma payload_of_encoded msg message :
  str_encode msg Client.FORMAT = Ok message -> payload_of msg = message.
Proof. intro H. unfold payload_of. now rewrite H. Qed.

(** What the client encodes, the server decodes to the same text. *)
Lemma decode_payload msg message :
  str_encode msg Client.FORMAT = Ok message ->
  bytes_decode message Server.FORMAT = Ok msg.
Proof.
  unfold str_encode, bytes_decode, Client.FORMAT, Server.FORMAT.
  destruct (utf8_encode msg) as [b|] eqn:E; [|discriminate].
  intro H. assert (b = message) by congruence. subst b.
  now rewrite (utf8_round_trip msg message E).
Qed.

Lemma chunked_skip cs : chunked ([] :: cs) = chunked cs.
Proof. reflexivity. Qed.

Lemma chunked_empty cs : concat cs = [] -> chunked cs = [].
Proof.
  induction cs as [|units cs IH]; [reflexivity|].
  cbn [concat]. intro H. apply app_eq_nil in H as [Hu Hc].
  subst units. rewrite chunked_skip. now apply IH.
Qed.

(** Asking for as many bytes as the next byte string has returns exactly
    that byte string. *)
Lemma deliver_next_unit cs :
  forall u units,
    concat cs = u :: units ->
    u <> [] ->
    len u <= PY_SSIZE_T_MAX ->
    exists cs',
      deliver (len u) (chunked cs) = (Ok u, chunked cs')
      /\ concat cs' = units.
Proof.
  induction cs as [|chunk cs IH]; intros u units Hc Hne Hmax;
    [discriminate Hc|].
  destruct chunk as [|u' us].
  - rewrite chunked_skip. now apply IH.
  - cbn [concat app] in Hc. injection Hc as -> Hunits.
    exists (us :: cs). split; [|exact Hunits].
    assert (Hch : forall v vs,
               chunked ((v :: vs) :: cs)
               = match v ++ concat vs with
                 | [] => chunked (vs :: cs)
                 | _ :: _ => Data (v ++ concat vs) :: chunked cs
                 end).
    { intros v vs. unfold chunked. cbn [flat_map concat].
      destruct v; cbn [app]; [|reflexivity].
      destruct (concat vs); reflexivity. }
    assert (Hch' : chunked (us :: cs)
                   = match concat us with
                     | [] => chunked cs
                     | _ :: _ => Data (concat us) :: chunked cs
                     end).
    { unfold chunked. cbn [flat_map]. destruct (concat us); reflexivity. }
    rewrite Hch, Hch'.
    destruct (u ++ concat us) as [|x l] eqn:E;
      [apply app_eq_nil in E as [E _]; contradiction|].
    rewrite <- E.
    unfold deliver.
    pose proof (len_nonneg u) as H0.
    destruct (Z.ltb_spec (len u) (- PY_SSIZE_T_MAX - 1));
      [unfold PY_SSIZE_T_MAX in *; lia|].
    destruct (Z.ltb_spec PY_SSIZE_T_MAX (len u)); [lia|].
    destruct (Z.ltb_spec (len u) 0); [lia|]. cbn [orb].
    unfold len. rewrite Nat2Z.id.
    rewrite firstn_app, firstn_all, Nat.sub_diag, firstn_O, app_nil_r.
    rewrite skipn_app, skipn_all, Nat.sub_diag, skipn_O. cbn [app].
    reflexivity.
Qed.

Lemma all_accepted_accept data o :
  all_accepted o ->
  accept data o = (Ok (len data), tl o) /\ all_accepted (tl o).
Proof.
  intro H. destruct H as [|s o Hs Ho]; [split; [reflexivity|constructor]|].
  subst s. split; [reflexivity|exact Ho].
Qed.

End Stream.

(** X12.  What the client encodes, the server decodes.  The two scripts
    name the same encoding, so for every message the client can encode
    (any string without a surrogate), decoding the payload bytes on the
    server gives back the message, character for character: the decoding
    step of the handler cannot fail on, or alter, a payload that arrives
    whole. *)
Theorem X12_payload_round_trip :
  forall (msg : str) (message : bytes),
    str_encode msg Client.FORMAT = Ok message ->
    bytes_decode message Server.FORMAT = Ok msg.
Proof.
  intros msg message Henc. exact (decode_payload msg message Henc).
Qed.

(** One character of each encoded length: "a", e-acute, the euro sign and
    an emoji. *)
Lemma X12_payload_round_trip_witness :
  bytes_decode [97; 195; 169; 226; 130; 172; 240; 159; 152; 128] Server.FORMAT
  = Ok [97; 233; 8364; 128512].
Proof.
  exact (X12_payload_round_trip [97; 233; 8364; 128512]
           [97; 195; 169; 226; 130; 172; 240; 159; 152; 128] eq_refl).
Defined.


(* ================================================================== *)
(** * The messages printed and the acknowledgments *)
(* ================================================================== *)

Section Logged.

Lemma logged_app a b : logged (a ++ b) = logged a ++ logged b.
Proof.
  induction a as [|e a IH]; [reflexivity|].
  destruct e as [| | | |[]]; cbn [app logged]; now rewrite ?IH.
Qed.

Lemma acks_match_app a b : acks_match a -> acks_match b -> acks_match (a ++ b).
Proof.
  unfold acks_match. intros Ha Hb.
  now rewrite sends_app, logged_app, map_app, Ha, Hb.
Qed.

End Logged.

(* ================================================================== *)
(** * The handler on its console: one pass *)
(* ================================================================== *)

Section RuntimeReads.

Lemma runtime_deliver_small n i :
  n <= PY_SSIZE_T_MAX - Runtime.PyBytesObject_SIZE ->
  Runtime.deliver n i = deliver n i.
Proof.
  intro H. unfold Runtime.deliver.
  destruct (Z.ltb_spec (PY_SSIZE_T_MAX - Runtime.PyBytesObject_SIZE) n);
    [lia|reflexivity].
Qed.

Lemma runtime_deliver_header i :
  Runtime.deliver Server.HEADER i = deliver Server.HEADER i.
Proof. reflexivity. Qed.

(** A read that returns bytes asked for a size a bytes object can have. *)
Lemma runtime_deliver_ok n i b :
  fst (Runtime.deliver n i) = Ok b ->
  n <= PY_SSIZE_T_MAX - Runtime.PyBytesObject_SIZE
  /\ Runtime.deliver n i = deliver n i.
Proof.
  unfold Runtime.deliver.
  destruct (Z.ltb_spec (PY_SSIZE_T_MAX - Runtime.PyBytesObject_SIZE) n);
    [intro E; discriminate E|]. intros _. split; [assumption|reflexivity].
Qed.

Lemma runtime_deliver_raise n i e i' :
  Runtime.deliver n i = (Raise e, i') -> is_Exception e = true.
Proof.
  unfold Runtime.deliver. destruct (_ <? _).
  - intro H. inversion H. reflexivity.
  - apply deliver_raise.
Qed.

Lemma runtime_deliver_pending_le n i :
  (pending (snd (Runtime.deliver n i)) <= pending i)%nat.
Proof.
  unfold Runtime.deliver. destruct (_ <? _); [cbn [snd]; lia|].
  apply deliver_pending_le.
Qed.

Lemma runtime_recv_eq n w :
  Runtime.recv n w
  = (fst (Runtime.deliver n (inbox w)),
     mkWorld (snd (Runtime.deliver n (inbox w))) (outcomes w)
             (trace w ++ [ERecv n (fst (Runtime.deliver n (inbox w)))])).
Proof. unfold Runtime.recv. now destruct (Runtime.deliver n (inbox w)). Qed.

End RuntimeReads.

(** One case split per call and per test of the [try] block. *)
Ltac runtime_step :=
  match goal with
  | |- context [Runtime.deliver ?X ?Y] =>
      let Hd := fresh "Hd" in
      destruct (Runtime.deliver X Y) as [[?header|?e] ?i] eqn:Hd;
      cbv beta iota zeta;
      [| rewrite (except_clauses_exception _ _ _
                    (runtime_deliver_raise _ _ _ _ Hd))]
  | |- context [bytes_decode ?X ?Y] =>
      let Hdec := fresh "Hdec" in
      destruct (bytes_decode X Y) as [?s|?e] eqn:Hdec; cbv beta iota zeta;
      [| pose proof (bytes_decode_raise _ _ _ Hdec); subst;
         rewrite except_clauses_exception by reflexivity]
  | |- context [int ?X] =>
      let Hint := fresh "Hint" in
      destruct (int X) as [?n|?e] eqn:Hint; cbv beta iota zeta;
      [| pose proof (int_raise _ _ Hint); subst;
         rewrite except_clauses_exception by reflexivity]
  | |- context [forallb ?X ?Y] =>
      let Hout := fresh "Hout" in
      destruct (forallb X Y) eqn:Hout; cbv beta iota zeta;
      [| rewrite except_clauses_exception by reflexivity]
  | |- context [accept ?X ?Y] =>
      let Hacc := fresh "Hacc" in
      destruct (accept X Y) as [[?k|?e] ?o] eqn:Hacc; cbv beta iota zeta;
      [| rewrite (except_clauses_exception _ _ _ (accept_raise _ _ _ _ Hacc))]
  | |- context [truthy ?X] =>
      destruct X as [|?c ?s]; cbn [truthy negb]; cbv beta iota zeta
  end.

Ltac runtime_cases :=
  unfold Runtime.iteration, try_except, Runtime.try_block, bind, lift,
    Runtime.recv, World.send, Runtime.print_message, print, ret, raise;
  change (str_encode (lit "Message received") Server.FORMAT)
    with (@Ok bytes (lit "Message received"));
  cbv beta iota zeta;
  repeat runtime_step.

Section RuntimePass.

Variable stdout : Runtime.charset.

(** A pass never raises, closes nothing, sends only acknowledgments, one
    for each message it prints, and takes from the inbox whenever it
    leaves [connected] true. *)
Lemma runtime_iteration_facts addr w :
  exists b w' evs,
    Runtime.iteration stdout addr w = (Ok b, w')
    /\ trace w' = trace w ++ evs
    /\ closes evs = O
    /\ acks_match evs
    /\ (pending (inbox w') <= pending (inbox w))%nat
    /\ (b = true -> (pending (inbox w') < pending (inbox w))%nat).
Proof.
  runtime_cases.
  all: do 3 eexists; split; [reflexivity|];
    unfold log; cbn [trace inbox outcomes] in *;
    split; [rewrite <- ?app_assoc; reflexivity|];
    split; [reflexivity|].
  all: split;
    [unfold acks_match; try reflexivity;
     match goal with
     | |- context [error_line _ ?e] => destruct e; reflexivity
     end|].
  all: try (destruct header as [|b1 header];
            [rewrite bytes_decode_nil in *; discriminate|]).
  all: repeat match goal with
         | H : Runtime.deliver ?n ?i = (?r, ?i') |- _ =>
             let Hle := fresh "Hle" in
             pose proof (runtime_deliver_pending_le n i) as Hle;
             lazymatch r with
             | Ok (_ :: _) =>
                 let Hlt := fresh "Hlt" in
                 try (pose proof (deliver_header_lt i _ _ (f_equal fst H)) as Hlt;
                      change (deliver Server.HEADER i)
                        with (Runtime.deliver Server.HEADER i) in Hlt;
                      rewrite H in Hlt; cbn [snd] in Hlt)
             | _ => idtac
             end;
             rewrite H in Hle; cbn [snd] in Hle; revert H
         end; intros.
  all: split; [lia|]; try (intro; discriminate); try lia.
Qed.

End RuntimePass.

(* ================================================================== *)
(** * The handler on its console: the loop and the cleanup *)
(* ================================================================== *)

Section RuntimeLoop.

Variable stdout : Runtime.charset.
Variable addr : address.

(** With fuel above what the inbox holds the loop ends, normally; what it
    sends is one acknowledgment for each message it prints. *)
Lemma runtime_while_connected_total :
  forall fuel w,
    (pending (inbox w) < fuel)%nat ->
    exists w' evs,
      Runtime.while_connected stdout fuel addr w = Some (Ok tt, w')
      /\ trace w' = trace w ++ evs
      /\ closes evs = O
      /\ acks_match evs.
Proof.
  induction fuel as [|fuel IH]; intros w Hfuel; [lia|].
  destruct (runtime_iteration_facts stdout addr w)
    as (b & w1 & evs & Hit & Ht & Hc & Ha & Hle & Hlt).
  cbn [Runtime.while_connected]. rewrite Hit.
  destruct b.
  - destruct (IH w1) as (w' & evs' & Hw & Ht' & Hc' & Ha');
      [specialize (Hlt eq_refl); lia|].
    exists w', (evs ++ evs'). split; [assumption|]. split; [|split].
    + now rewrite Ht', Ht, app_assoc.
    + rewrite closes_app. lia.
    + now apply acks_match_app.
  - exists w1, evs. auto.
Qed.

Lemma runtime_while_connected_more_fuel :
  forall fuel w r,
    Runtime.while_connected stdout fuel addr w = Some r ->
    Runtime.while_connected stdout (S fuel) addr w = Some r.
Proof.
  induction fuel as [|fuel IH]; intros w r H; [discriminate H|].
  cbn [Runtime.while_connected] in H.
  change (Runtime.while_connected stdout (S (S fuel)) addr w)
    with (match Runtime.iteration stdout addr w with
          | (Ok true, w') => Runtime.while_connected stdout (S fuel) addr w'
          | (Ok false, w') => Some (Ok tt, w')
          | (Raise e, w') => Some (Raise e, w')
          end).
  destruct (Runtime.iteration stdout addr w) as [[[|]|e] w']; auto.
Qed.

Lemma runtime_while_connected_add_fuel k :
  forall fuel w r,
    Runtime.while_connected stdout fuel addr w = Some r ->
    Runtime.while_connected stdout (k + fuel) addr w = Some r.
Proof.
  induction k as [|k IH]; intros fuel w r H; [exact H|].
  cbn [Nat.add]. apply runtime_while_connected_more_fuel. now apply IH.
Qed.

(** With enough fuel the result of the loop does not depend on the fuel. *)
Lemma runtime_while_connected_fuel_agree f1 f2 w r1 r2 :
  Runtime.while_connected stdout f1 addr w = Some r1 ->
  Runtime.while_connected stdout f2 addr w = Some r2 ->
  r1 = r2.
Proof.
  intros H1 H2.
  apply (runtime_while_connected_add_fuel f2) in H1.
  apply (runtime_while_connected_add_fuel f1) in H2.
  rewrite Nat.add_comm in H2. congruence.
Qed.

(** A pass that leaves [connected] false is the last one. *)
Lemma runtime_serve_last_pass fuel w w1 :
  Runtime.iteration stdout addr w = (Ok false, w1) ->
  Runtime.serve stdout (S fuel) addr w
  = Some (Ok tt, mkWorld (inbox w1) (outcomes w1)
                   (trace w1 ++ [EPrint (ClosingFor addr); EClose])).
Proof.
  intro H. unfold Runtime.serve. cbn [Runtime.while_connected]. rewrite H.
  unfold bind, print, close, log. cbn [inbox outcomes trace].
  now rewrite <- app_assoc.
Qed.

(** The whole run: the connection line, the passes, the closing line and
    the close. *)
Lemma runtime_handle_client_run w :
  exists w' evs,
    Runtime.handle_client stdout addr w = Some (Ok tt, w')
    /\ Runtime.while_connected stdout (S (pending (inbox w))) addr
         (log (EPrint (NewConnection addr)) w)
       = Some (Ok tt, mkWorld (inbox w') (outcomes w')
                        (trace w ++ EPrint (NewConnection addr) :: evs))
    /\ trace w'
       = trace w ++ EPrint (NewConnection addr) :: evs
                 ++ [EPrint (ClosingFor addr); EClose]
    /\ closes evs = O
    /\ acks_match evs.
Proof.
  unfold Runtime.handle_client, print. cbv beta iota zeta.
  set (w0 := log (EPrint (NewConnection addr)) w).
  destruct (runtime_while_connected_total (S (pending (inbox w0))) w0)
    as (w1 & evs & Hw & Ht & Hc & Ha); [lia|].
  unfold Runtime.serve. change (inbox w0) with (inbox w) in Hw |- *.
  rewrite Hw.
  unfold bind, print, close, log. cbn [inbox outcomes trace].
  eexists. exists evs. split; [reflexivity|]. cbn [inbox outcomes trace].
  rewrite Ht. unfold w0, log. cbn [trace].
  rewrite <- !app_assoc. cbn [app].
  split; [|split; [reflexivity|split; assumption]].
  f_equal. f_equal. destruct w1 as [i1 o1 t1]. cbn [inbox outcomes trace] in *.
  f_equal. rewrite Ht. unfold w0, log. cbn [trace].
  now rewrite <- app_assoc.
Qed.

End RuntimeLoop.

(* ================================================================== *)
(** * The handler on its console: a frame that decodes *)
(* ================================================================== *)

Section RuntimeFrame.

Variable stdout : Runtime.charset.
Variable addr : address.
Variable w : world.
Variables (header payload : bytes) (msg_length_header msg : str) (msg_length : Z).

Let i1 := snd (Runtime.deliver Server.HEADER (inbox w)).
Let ack := lit "Message received".
Let r := fst (accept ack (outcomes w)).

Hypothesis Hheader : fst (Runtime.deliver Server.HEADER (inbox w)) = Ok header.
Hypothesis Hdecode : bytes_decode header Server.FORMAT = Ok msg_length_header.
Hypothesis Hsome : truthy msg_length_header = true.
Hypothesis Hint : int msg_length_header = Ok msg_length.
Hypothesis Hpayload : fst (Runtime.deliver msg_length i1) = Ok payload.
Hypothesis Hmsg : bytes_decode payload Server.FORMAT = Ok msg.

(** The pass over a frame whose header and payload both decode, when the
    console can print the message. *)
Lemma runtime_iteration_frame :
  printable stdout msg ->
  Runtime.iteration stdout addr w
  = (Ok (match r with
         | Ok _ => negb (str_eqb msg Server.MSG_DISCONNECT)
         | Raise _ => false
         end),
     mkWorld (snd (Runtime.deliver msg_length i1)) (snd (accept ack (outcomes w)))
       (trace w ++ [ERecv Server.HEADER (Ok header);
                    ERecv msg_length (Ok payload);
                    EPrint (Received addr msg);
                    ESend ack r]
                ++ match r with
                   | Ok _ => []
                   | Raise e => [EPrint (error_line addr e)]
                   end)).
Proof.
  intro Hout. unfold printable in Hout.
  unfold Runtime.iteration, try_except, Runtime.try_block, bind, lift.
  rewrite runtime_recv_eq, Hheader, Hdecode, Hsome. cbn [negb].
  rewrite Hint, runtime_recv_eq. cbn [inbox outcomes trace]. fold i1.
  rewrite Hpayload, Hmsg.
  change (str_encode (lit "Message received") Server.FORMAT) with (Ok ack).
  unfold Runtime.print_message. rewrite Hout.
  unfold print, log. cbn [inbox outcomes trace].
  rewrite send_eq. cbn [inbox outcomes trace]. fold r.
  destruct (accept ack (outcomes w)) as [[k|e] o] eqn:Hacc;
    subst r; cbn [fst snd].
  - unfold ret. rewrite <- !app_assoc, app_nil_r.
    destruct (str_eqb msg Server.MSG_DISCONNECT); reflexivity.
  - rewrite (except_clauses_exception _ _ _ (accept_raise _ _ _ _ Hacc)).
    unfold log. cbn [inbox outcomes trace]. rewrite <- !app_assoc. reflexivity.
Qed.

(** The same frame when the console cannot print the message: [print]
    raises UnicodeEncodeError, a ValueError. *)
Lemma runtime_iteration_unprintable :
  forallb stdout msg = false ->
  Runtime.iteration stdout addr w
  = (Ok false,
     mkWorld (snd (Runtime.deliver msg_length i1)) (outcomes w)
       (trace w ++ [ERecv Server.HEADER (Ok header);
                    ERecv msg_length (Ok payload);
                    EPrint (ErrorInvalidHeader addr)])).
Proof.
  intro Hout.
  unfold Runtime.iteration, try_except, Runtime.try_block, bind, lift.
  rewrite runtime_recv_eq, Hheader, Hdecode, Hsome. cbn [negb].
  rewrite Hint, runtime_recv_eq. cbn [inbox outcomes trace]. fold i1.
  rewrite Hpayload, Hmsg.
  unfold Runtime.print_message. rewrite Hout.
  unfold raise. rewrite except_clauses_exception by reflexivity.
  unfold log. cbn [inbox outcomes trace error_line is_ConnectionResetError
                   is_ValueError].
  now rewrite <- !app_assoc.
Qed.

End RuntimeFrame.

(** C9, as the code has it.  At the head of the loop, when a header and a
    payload are read and both decode, and the console can print the
    message, the pass prints the message and sends "Message received"
    right after the two reads, whatever the message is.  When the message
    is the disconnect sentinel the loop ends with that pass: the handler's
    remaining life is the message line, the acknowledgment (with its error
    line, should the send fail), the closing line and the close. *)
Theorem C9_disconnect_frame_acknowledged :
  forall (stdout : Runtime.charset) (fuel : nat) (addr : address) (w : world)
         (header payload : bytes) (msg_length_header msg : str) (msg_length : Z),
    fst (Runtime.deliver Server.HEADER (inbox w)) = Ok header ->
    bytes_decode header Server.FORMAT = Ok msg_length_header ->
    truthy msg_length_header = true ->
    int msg_length_header = Ok msg_length ->
    fst (Runtime.deliver msg_length
           (snd (Runtime.deliver Server.HEADER (inbox w)))) = Ok payload ->
    bytes_decode payload Server.FORMAT = Ok msg ->
    printable stdout msg ->
    let ack := lit "Message received" in
    let r := fst (accept ack (outcomes w)) in
    let pass := [ERecv Server.HEADER (Ok header);
                 ERecv msg_length (Ok payload);
                 EPrint (Received addr msg);
                 ESend ack r]
                ++ match r with
                   | Ok _ => []
                   | Raise e => [EPrint (error_line addr e)]
                   end in
    (exists connected w1,
        Runtime.iteration stdout addr w = (Ok connected, w1)
        /\ trace w1 = trace w ++ pass)
    /\ (msg = Server.MSG_DISCONNECT ->
        exists w2,
          Runtime.serve stdout (S fuel) addr w = Some (Ok tt, w2)
          /\ trace w2 = trace w ++ pass ++ [EPrint (ClosingFor addr); EClose]).
Proof.
  intros stdout fuel addr w header payload h msg n Hh Hd Hs Hi Hp Hm Hout
    ack r pass.
  pose proof (runtime_iteration_frame stdout addr w header payload h msg n
                Hh Hd Hs Hi Hp Hm Hout) as Hit.
  cbv zeta in Hit. fold ack r in Hit.
  split.
  - do 2 eexists. split; [exact Hit|]. reflexivity.
  - intros ->. rewrite str_eqb_refl in Hit. cbn [negb] in Hit.
    replace (match r with Ok _ => false | Raise _ => false end) with false in Hit
      by (destruct r; reflexivity).
    eexists. split; [apply runtime_serve_last_pass; exact Hit|].
    cbn [trace]. fold pass. now rewrite <- app_assoc.
Qed.

(** C9 fails on a frame that decodes to a message the console cannot
    print: the two bytes of an e-acute, on a console that has ASCII only.
    [print] raises UnicodeEncodeError, the handler takes it for an invalid
    header, and no acknowledgment is sent for the frame. *)
Lemma C9_unprintable_frame_not_acknowledged :
  let addr := (lit "10.0.0.7", 40000) in
  let header := wire_header 2 63 in
  let payload := [195; 169] in
  let run := Runtime.handle_client Runtime.ascii_console addr
               (mkWorld [Data (header ++ payload)] [] []) in
  decode_header header = Ok 2
  /\ bytes_decode payload Server.FORMAT = Ok [233]
  /\ run = Some (Ok tt,
                 mkWorld [] []
                   [EPrint (NewConnection addr);
                    ERecv 64 (Ok header);
                    ERecv 2 (Ok payload);
                    EPrint (ErrorInvalidHeader addr);
                    EPrint (ClosingFor addr); EClose])
  /\ match run with
     | Some (_, w') => sends (trace w') = []
     | None => False
     end.
Proof.
  intros addr header payload run.
  split; [reflexivity|]. split; [reflexivity|].
  split; reflexivity.
Qed.

(** The frame of "!Disconnect", arriving whole, on a console that has ASCII
    only. *)
Lemma C9_disconnect_frame_acknowledged_witness :
  let addr := (lit "10.0.0.7", 40000) in
  let header := wire_header 11 62 in
  let w := mkWorld [Data (header ++ Server.MSG_DISCONNECT)] [] [] in
  exists w2,
    Runtime.serve Runtime.ascii_console 1 addr w = Some (Ok tt, w2)
    /\ trace w2
       = [ERecv 64 (Ok header);
          ERecv 11 (Ok Server.MSG_DISCONNECT);
          EPrint (Received addr Server.MSG_DISCONNECT);
          ESend (lit "Message received") (Ok 16);
          EPrint (ClosingFor addr); EClose].
Proof.
  intros addr header w.
  exact (proj2 (C9_disconnect_frame_acknowledged Runtime.ascii_console O addr w
                  header Server.MSG_DISCONNECT header Server.MSG_DISCONNECT 11
                  eq_refl eq_refl eq_refl eq_refl eq_refl eq_refl eq_refl)
           eq_refl).
Defined.

(* ================================================================== *)
(** * The handler on frames that arrive whole *)
(* ================================================================== *)

Section StreamLoop.

Variable stdout : Runtime.charset.

(** One pass over a frame that arrives whole. *)
Lemma iteration_on_frame addr w cs msg units :
  sendable msg ->
  printable stdout msg ->
  inbox w = chunked cs ->
  concat cs = frame_units msg ++ units ->
  all_accepted (outcomes w) ->
  exists cs',
    Runtime.iteration stdout addr w
    = (Ok (negb (str_eqb msg Server.MSG_DISCONNECT)),
       mkWorld (chunked cs') (tl (outcomes w))
         (trace w ++ pass_events addr msg))
    /\ concat cs' = units.
Proof.
  intros (Hne & p & Henc & Hmax) Hout Hin Hcs Hacc.
  unfold frame_units, pass_events in *.
  rewrite (payload_of_encoded msg p Henc) in *.
  cbn [app] in Hcs.
  assert (Hmax' : len p <= PY_SSIZE_T_MAX)
    by (unfold Runtime.PyBytesObject_SIZE in Hmax; lia).
  pose proof (str_encode_nonempty msg _ p Hne Henc) as Hp1.
  pose proof (client_header_length p (header_fits (len p) (conj (len_nonneg p) Hmax')))
    as Hh64.
  assert (Hlen : len (client_header p) = Server.HEADER)
    by (unfold len; rewrite Hh64; reflexivity).
  assert (Hhne : client_header p <> [])
    by (intro E; rewrite E in Hh64; discriminate Hh64).
  assert (Hpne : p <> [])
    by (intro E; subst p; cbn in Hp1; lia).
  destruct (deliver_next_unit cs (client_header p) (p :: units) Hcs Hhne)
    as (cs1 & Hd1 & Hc1); [rewrite Hlen; unfold Server.HEADER, PY_SSIZE_T_MAX; lia|].
  destruct (deliver_next_unit cs1 p units Hc1 Hpne Hmax') as (cs2 & Hd2 & Hc2).
  rewrite Hlen in Hd1.
  rewrite <- runtime_deliver_header in Hd1.
  rewrite <- (runtime_deliver_small _ _ Hmax) in Hd2.
  destruct (decode_header_inv _ _ (decode_client_header p)) as (h & Hdec & Hs & Hi).
  destruct (all_accepted_accept (lit "Message received") _ Hacc) as [Ha _].
  exists cs2. split; [|exact Hc2].
  rewrite (runtime_iteration_frame stdout addr w (client_header p) p h msg (len p)).
  - rewrite Hin, Hd1, Ha. cbn [fst snd]. rewrite Hd2. cbn [snd].
    rewrite app_nil_r. reflexivity.
  - now rewrite Hin, Hd1.
  - exact Hdec.
  - exact Hs.
  - exact Hi.
  - rewrite Hin, Hd1. cbn [snd]. now rewrite Hd2.
  - now apply decode_payload.
  - exact Hout.
Qed.

Lemma upto_sentinel_cons m msgs :
  upto_sentinel (m :: msgs)
  = if str_eqb m Server.MSG_DISCONNECT then [m] else m :: upto_sentinel msgs.
Proof. reflexivity. Qed.

(** The loop over frames that arrive whole. *)
Lemma while_connected_stream addr :
  forall msgs cs w,
    Forall sendable msgs ->
    Forall (printable stdout) msgs ->
    inbox w = chunked cs ->
    concat cs = flat_map frame_units msgs ->
    all_accepted (outcomes w) ->
    exists w',
      Runtime.while_connected stdout (S (length msgs)) addr w = Some (Ok tt, w')
      /\ trace w'
         = trace w ++ flat_map (pass_events addr) (upto_sentinel msgs)
                   ++ (if has_sentinel msgs then []
                       else [ERecv Server.HEADER (Ok [])]).
Proof.
  induction msgs as [|m msgs IH]; intros cs w Hs Hout Hin Hcs Hacc.
  - cbn [flat_map] in Hcs. apply chunked_empty in Hcs. rewrite Hcs in Hin.
    eexists. split.
    + cbn [length Runtime.while_connected].
      unfold Runtime.iteration, try_except, Runtime.try_block, bind, lift.
      rewrite runtime_recv_eq, Hin, runtime_deliver_header.
      unfold deliver.
      change ((Server.HEADER <? - PY_SSIZE_T_MAX - 1)
              || (PY_SSIZE_T_MAX <? Server.HEADER)) with false.
      change (Server.HEADER <? 0) with false. cbv beta iota. cbn [fst snd].
      rewrite bytes_decode_nil. cbn [truthy negb]. unfold ret. reflexivity.
    + cbn [trace upto_sentinel flat_map has_sentinel existsb app]. reflexivity.
  - apply Forall_cons_iff in Hs as [Hm Hs].
    apply Forall_cons_iff in Hout as [Hom Hout].
    cbn [flat_map] in Hcs.
    destruct (iteration_on_frame addr w cs m _ Hm Hom Hin Hcs Hacc)
      as (cs1 & Hit & Hc1).
    cbn [length].
    change (Runtime.while_connected stdout (S (S (length msgs))) addr w)
      with (match Runtime.iteration stdout addr w with
            | (Ok true, w') =>
                Runtime.while_connected stdout (S (length msgs)) addr w'
            | (Ok false, w') => Some (Ok tt, w')
            | (Raise e, w') => Some (Raise e, w')
            end).
    rewrite Hit. rewrite upto_sentinel_cons. cbn [has_sentinel existsb].
    destruct (str_eqb m Server.MSG_DISCONNECT); cbn [negb orb].
    + eexists. split; [reflexivity|]. cbn [trace flat_map].
      now rewrite !app_nil_r.
    + destruct (IH cs1 (mkWorld (chunked cs1) (tl (outcomes w))
                          (trace w ++ pass_events addr m)))
        as (w' & Hw & Ht); try assumption; try reflexivity.
      { cbn [outcomes]. now apply (all_accepted_accept []). }
      exists w'. split; [exact Hw|].
      rewrite Ht. cbn [trace flat_map]. fold (has_sentinel msgs).
      now rewrite <- !app_assoc.
Qed.

Lemma logged_passes addr msgs :
  logged (flat_map (pass_events addr) msgs) = msgs.
Proof.
  induction msgs as [|m msgs IH]; [reflexivity|].
  cbn [flat_map]. rewrite logged_app, IH. reflexivity.
Qed.

End StreamLoop.

(** The handler on frames that arrive whole. *)
Lemma handle_client_stream :
  forall (stdout : Runtime.charset) (addr : address) (msgs : list str)
         (cs : list (list bytes)) (w : world),
    Forall sendable msgs ->
    Forall (printable stdout) msgs ->
    inbox w = chunked cs ->
    concat cs = flat_map frame_units msgs ->
    all_accepted (outcomes w) ->
    exists w' evs,
      Runtime.handle_client stdout addr w = Some (Ok tt, w')
      /\ trace w' = trace w ++ evs
      /\ evs = EPrint (NewConnection addr)
               :: flat_map (pass_events addr) (upto_sentinel msgs)
               ++ (if has_sentinel msgs then []
                   else [ERecv Server.HEADER (Ok [])])
               ++ [EPrint (ClosingFor addr); EClose]
      /\ logged evs = upto_sentinel msgs.
Proof.
  intros stdout addr msgs cs w Hs Hout Hin Hcs Hacc.
  set (w0 := log (EPrint (NewConnection addr)) w).
  destruct (while_connected_stream stdout addr msgs cs w0 Hs Hout Hin Hcs Hacc)
    as (w1 & Hw1 & Ht1).
  destruct (runtime_handle_client_run stdout addr w)
    as (w2 & evs2 & Hrun & Hw2 & Ht2 & _).
  fold w0 in Hw2.
  pose proof (runtime_while_connected_fuel_agree stdout addr _ _ w0 _ _ Hw1 Hw2)
    as E.
  injection E as E. subst w1. cbn [trace] in Ht1.
  unfold w0, log in Ht1. cbn [trace] in Ht1.
  rewrite <- app_assoc in Ht1. cbn [app] in Ht1.
  apply app_inv_head in Ht1. injection Ht1 as Ht1. subst evs2.
  exists w2. eexists. split; [exact Hrun|]. split; [exact Ht2|].
  split; [now rewrite <- !app_assoc|].
  cbn [logged]. rewrite !logged_app, logged_passes.
  destruct (has_sentinel msgs); cbn [logged]; now rewrite ?app_nil_r.
Qed.

(** X1.  Frames that arrive whole are served in order.  Let the inbox of a
    connection hold the frames of [msgs] (each message not empty, encodable,
    no longer than a bytes object can be, and printable on the server's
    console), in chunks that may merge several byte strings but cut through
    none, with the peer's shutdown after them, and let every send be
    accepted.  Then the handler returns normally; for each message up to
    and including the first "!Disconnect" it reads the 64-byte header,
    reads the payload, prints the message and sends the acknowledgment, in
    that order; it reads nothing after the sentinel; without a sentinel it
    meets the end of the stream; then it closes.  The messages it printed
    are exactly the messages sent, up to the sentinel. *)
Theorem X1_frames_served_in_order :
  forall (stdout : Runtime.charset) (addr : address) (msgs : list str)
         (cs : list (list bytes)) (w : world),
    Forall sendable msgs ->
    Forall (printable stdout) msgs ->
    inbox w = chunked cs ->
    concat cs = flat_map frame_units msgs ->
    all_accepted (outcomes w) ->
    exists w' evs,
      Runtime.handle_client stdout addr w = Some (Ok tt, w')
      /\ trace w' = trace w ++ evs
      /\ evs = EPrint (NewConnection addr)
               :: flat_map (pass_events addr) (upto_sentinel msgs)
               ++ (if has_sentinel msgs then []
                   else [ERecv Server.HEADER (Ok [])])
               ++ [EPrint (ClosingFor addr); EClose]
      /\ logged evs = upto_sentinel msgs.
Proof.
  intros stdout addr msgs cs w Hs Hout Hin Hcs Hacc.
  destruct (handle_client_stream stdout addr msgs cs w Hs Hout Hin Hcs Hacc)
    as (w' & evs & Hrun & Ht & Hevs & Hlog).
  exists w', evs. repeat split; assumption.
Qed.

(** Three messages in three chunks that respect no frame boundary but cut
    through no byte string; the third message comes after the sentinel.
    The console has ASCII only. *)
Lemma X1_frames_served_in_order_witness :
  let addr := (lit "10.0.0.7", 40000) in
  let msgs := [lit "hello"; Server.MSG_DISCONNECT; lit "late"] in
  let cs := [[wire_header 5 63];
             [lit "hello"; wire_header 11 62; Server.MSG_DISCONNECT;
              wire_header 4 63];
             [lit "late"]] in
  exists w' evs,
    Runtime.handle_client Runtime.ascii_console addr
      (mkWorld (chunked cs) [] []) = Some (Ok tt, w')
    /\ trace w' = evs
    /\ evs = EPrint (NewConnection addr)
             :: flat_map (pass_events addr) [lit "hello"; Server.MSG_DISCONNECT]
             ++ [EPrint (ClosingFor addr); EClose]
    /\ logged evs = [lit "hello"; Server.MSG_DISCONNECT].
Proof.
  intros addr msgs cs.
  apply (X1_frames_served_in_order Runtime.ascii_console addr msgs cs
           (mkWorld (chunked cs) [] [])).
  - repeat constructor; try discriminate;
      eexists; (split; [reflexivity | vm_compute; discriminate]).
  - repeat constructor.
  - reflexivity.
  - reflexivity.
  - constructor.
Defined.

(* ================================================================== *)
(** * The client in a conversation where nothing fails *)
(* ================================================================== *)

Section Conversation.

Lemma all_accepted_accepting o k : all_accepted o -> accepting k o.
Proof.
  intro H. revert k. induction H as [|s o Hs Ho IH]; intro k.
  - destruct k; exact I.
  - destruct k; [exact I|]. subst s. cbn. apply IH.
Qed.

Lemma all_accepted_tl o : all_accepted o -> all_accepted (tl o).
Proof. intro H. destruct H; [constructor|assumption]. Qed.

(** A read of up to 2048 bytes from a readable inbox: a whole chunk, or
    nothing when the peer has shut down; what is left is readable. *)
Lemma deliver_readable i :
  readable i ->
  exists response text,
    fst (deliver 2048 i) = Ok response
    /\ bytes_decode response Client.FORMAT = Ok text
    /\ readable (snd (deliver 2048 i)).
Proof.
  intro H. destruct H as [|ev i (b & -> & Hlen & Hdec) Hi].
  - exists [], []. repeat split. constructor.
  - unfold deliver.
    change ((2048 <? - PY_SSIZE_T_MAX - 1) || (PY_SSIZE_T_MAX <? 2048)) with false.
    change (2048 <? 0) with false. cbv beta iota zeta. cbn [fst snd].
    assert (Hk : Z.to_nat 2048 = 2048%nat) by reflexivity. rewrite Hk.
    rewrite firstn_all2 by lia. rewrite skipn_all2 by lia.
    destruct (utf8_decode b) as [text|] eqn:E; [|contradiction].
    exists b, text. repeat split; [|exact Hi].
    unfold bytes_decode, Client.FORMAT. now rewrite E.
Qed.

(** One [send] in a conversation where nothing fails. *)
Lemma client_send_healthy msg message w :
  str_encode msg Client.FORMAT = Ok message ->
  all_accepted (outcomes w) ->
  readable (inbox w) ->
  exists w',
    Client.send msg w = (Ok true, w')
    /\ all_accepted (outcomes w')
    /\ readable (inbox w')
    /\ sends (trace w') = sends (trace w) ++ [client_header message; message]
    /\ length (recvs (trace w')) = S (length (recvs (trace w)))
    /\ closes (trace w') = closes (trace w).
Proof.
  intros Henc Hacc Hread.
  destruct (deliver_readable (inbox w) Hread) as (response & text & Hr & Hd & Hrest).
  rewrite (client_send_success msg message response text w Henc
             (all_accepted_accepting _ 2 Hacc) Hr Hd).
  eexists. split; [reflexivity|]. cbn [inbox outcomes trace].
  repeat split.
  - now apply all_accepted_tl, all_accepted_tl.
  - exact Hrest.
  - rewrite sends_app. cbn [sends]. reflexivity.
  - rewrite recvs_app, length_app. cbn [recvs length]. lia.
  - rewrite closes_app. cbn [closes]. lia.
Qed.

Lemma filter_truthy_cons (m : str) l :
  filter (fun m : str => truthy m) (m :: l)
  = if truthy m then m :: filter (fun m : str => truthy m) l
    else filter (fun m : str => truthy m) l.
Proof. reflexivity. Qed.

Lemma has_sentinel_filter l :
  has_sentinel (filter (fun m : str => truthy m) l) = has_sentinel l.
Proof.
  induction l as [|m l IH]; [reflexivity|].
  rewrite filter_truthy_cons. destruct m as [|c m]; cbn [truthy].
  - cbn [has_sentinel existsb]. exact IH.
  - cbn [has_sentinel existsb]. unfold has_sentinel in IH. now rewrite IH.
Qed.

(** The loop in a conversation where nothing fails. *)
Lemma main_loop_healthy :
  forall lines w,
    Forall encodable lines ->
    all_accepted (outcomes w) ->
    readable (inbox w) ->
    let said := upto_sentinel (filter (fun m : str => truthy m) lines) in
    let r := Client.main_loop (map Client.Line lines) w in
    fst r = (if has_sentinel lines then Ok tt else Raise EOFError)
    /\ sends (trace (snd r)) = sends (trace w) ++ flat_map frame_units said
    /\ length (recvs (trace (snd r)))
       = (length (recvs (trace w)) + length said)%nat
    /\ closes (trace (snd r)) = closes (trace w).
Proof.
  induction lines as [|m lines IH]; intros w Henc Hacc Hread; cbv zeta.
  - cbn [map Client.main_loop fst snd has_sentinel existsb filter
         upto_sentinel flat_map length].
    unfold log. cbn [trace]. rewrite sends_app, recvs_app, closes_app.
    cbn [sends recvs closes]. rewrite !app_nil_r.
    split; [reflexivity|]. split; [reflexivity|]. split; lia.
  - apply Forall_cons_iff in Henc as [(p & Hp) Henc].
    cbn [map]. rewrite main_loop_line. cbv zeta.
    set (w1 := log (EInput (Ok m)) w).
    assert (Hs1 : sends (trace w1) = sends (trace w))
      by (cbn; rewrite sends_app; cbn; apply app_nil_r).
    assert (Hr1 : recvs (trace w1) = recvs (trace w))
      by (cbn; rewrite recvs_app; cbn; apply app_nil_r).
    assert (Hc1 : closes (trace w1) = closes (trace w))
      by (cbn; rewrite closes_app; cbn; lia).
    rewrite filter_truthy_cons.
    destruct (truthy m) eqn:Ht.
    2:{ destruct m; [|discriminate Ht].
        cbn [has_sentinel existsb str_eqb Server.MSG_DISCONNECT lit].
        change (str_eqb [] (map _ _)) with false. cbn [orb].
        fold (has_sentinel lines).
        specialize (IH w1 Henc Hacc Hread). cbv zeta in IH.
        rewrite Hs1, Hr1, Hc1 in IH. exact IH. }
    destruct (client_send_healthy m p w1 Hp Hacc Hread)
      as (w2 & Hsend & Hacc2 & Hread2 & Hs2 & Hr2 & Hc2).
    rewrite Hsend. rewrite upto_sentinel_cons.
    cbn [has_sentinel existsb].
    change Client.MSG_DISCONNECT with Server.MSG_DISCONNECT.
    assert (Hunits : frame_units m = [client_header p; p])
      by (unfold frame_units; now rewrite (payload_of_encoded m p Hp)).
    destruct (str_eqb m Server.MSG_DISCONNECT); cbn [orb fst snd].
    + cbn [flat_map length]. rewrite app_nil_r, Hunits.
      rewrite Hs2, Hs1, Hr2, Hr1, Hc2, Hc1. repeat split; lia.
    + fold (has_sentinel lines).
      specialize (IH w2 Henc Hacc2 Hread2). cbv zeta in IH.
      destruct IH as (Hres & Hs & Hr & Hc).
      rewrite Hres, Hs, Hr, Hc. cbn [flat_map length].
      rewrite Hunits, Hs2, Hs1, Hr2, Hr1, Hc2, Hc1, <- app_assoc.
      repeat split; lia.
Qed.

End Conversation.

(** The script in a conversation where nothing fails. *)
Lemma main_healthy :
  forall (lines : list str) (w : world),
    Forall encodable lines ->
    all_accepted (outcomes w) ->
    readable (inbox w) ->
    let said := upto_sentinel (filter (fun m : str => truthy m) lines) in
    let r := Client.main (map Client.Line lines) w in
    fst r = (if has_sentinel lines then Ok tt else Raise EOFError)
    /\ sends (trace (snd r)) = sends (trace w) ++ flat_map frame_units said
    /\ length (recvs (trace (snd r)))
       = (length (recvs (trace w)) + length said)%nat
    /\ closes (trace (snd r))
       = (closes (trace w) + if has_sentinel lines then 1 else 0)%nat.
Proof.
  intros lines w Henc Hacc Hread. cbv zeta.
  pose proof (main_loop_healthy lines (log (EPrint Banner) w) Henc Hacc Hread)
    as H. cbv zeta in H.
  unfold Client.main, bind, print, close.
  destruct (Client.main_loop (map Client.Line lines) (log (EPrint Banner) w))
    as [[[]|e] w1]; cbn [fst snd] in H |- *;
    destruct H as (Hres & Hs & Hr & Hc);
    destruct (has_sentinel lines); try discriminate Hres;
    unfold log in *; cbn [trace] in *;
    rewrite ?sends_app, ?recvs_app, ?closes_app in *;
    cbn [sends recvs closes] in *; rewrite ?app_nil_r in *.
  - repeat split; try assumption; lia.
  - repeat split; try assumption; lia.
Qed.

(** X2.  The client in a conversation where nothing fails: every line can
    be encoded, every send is accepted, and every read returns a whole
    chunk of valid UTF-8 (or nothing, the server having shut down, which
    the client takes for an empty acknowledgment).  Then the client sends,
    for each non-empty line up to and including the first "!Disconnect",
    the header and then the payload, and nothing else; it reads once per
    message sent.  With a sentinel among the lines the script ends normally
    and has closed the socket once; without one it ends with EOFError at
    the end of the input and never closes. *)
Theorem X2_client_conversation :
  forall (lines : list str) (w : world),
    Forall encodable lines ->
    all_accepted (outcomes w) ->
    readable (inbox w) ->
    let said := upto_sentinel (filter (fun m : str => truthy m) lines) in
    let r := Client.main (map Client.Line lines) w in
    fst r = (if has_sentinel lines then Ok tt else Raise EOFError)
    /\ sends (trace (snd r)) = sends (trace w) ++ flat_map frame_units said
    /\ length (recvs (trace (snd r)))
       = (length (recvs (trace w)) + length said)%nat
    /\ closes (trace (snd r))
       = (closes (trace w) + if has_sentinel lines then 1 else 0)%nat.
Proof.
  intros lines w Henc Hacc Hread said r.
  destruct (main_healthy lines w Henc Hacc Hread) as (Hres & Hs & Hr & Hc).
  repeat split; assumption.
Qed.

(** A conversation with an empty line, the sentinel, and a line typed after
    it; the server has shut down before the second acknowledgment. *)
Lemma X2_client_conversation_witness :
  let lines := [lit "hello"; []; Client.MSG_DISCONNECT; lit "late"] in
  let r := Client.main (map Client.Line lines)
             (mkWorld [Data (lit "Message received")] [] []) in
  fst r = Ok tt
  /\ sends (trace (snd r))
     = [wire_header 5 63; lit "hello"; wire_header 11 62; Client.MSG_DISCONNECT]
  /\ length (recvs (trace (snd r))) = 2%nat
  /\ closes (trace (snd r)) = 1%nat.
Proof.
  intros lines r.
  apply (X2_client_conversation lines
           (mkWorld [Data (lit "Message received")] [] [])).
  - repeat constructor; eexists; reflexivity.
  - constructor.
  - repeat constructor. eexists. split; [reflexivity|].
    split; [cbn; lia | discriminate].
Defined.

(* ================================================================== *)
(** * The two ends of a conversation *)
(* ================================================================== *)

Section EndToEnd.

Lemma upto_sentinel_idempotent l : upto_sentinel (upto_sentinel l) = upto_sentinel l.
Proof.
  induction l as [|m l IH]; [reflexivity|].
  rewrite upto_sentinel_cons.
  destruct (str_eqb m Server.MSG_DISCONNECT) eqn:E;
    rewrite upto_sentinel_cons, E; [reflexivity | now rewrite IH].
Qed.

Lemma has_sentinel_upto l : has_sentinel (upto_sentinel l) = has_sentinel l.
Proof.
  induction l as [|m l IH]; [reflexivity|].
  rewrite upto_sentinel_cons. cbn [has_sentinel existsb].
  destruct (str_eqb m Server.MSG_DISCONNECT) eqn:E;
    cbn [has_sentinel existsb]; rewrite E; [reflexivity|].
  cbn [orb]. exact IH.
Qed.

Lemma Forall_upto_sentinel (P : str -> Prop) l :
  Forall P l -> Forall P (upto_sentinel l).
Proof.
  induction 1 as [|m l Hm Hl IH]; [constructor|].
  rewrite upto_sentinel_cons.
  destruct (str_eqb m Server.MSG_DISCONNECT); repeat constructor; assumption.
Qed.

Lemma sendable_said lines :
  Forall encodable lines ->
  Forall (fun m => len (payload_of m)
                   <= PY_SSIZE_T_MAX - Runtime.PyBytesObject_SIZE) lines ->
  Forall sendable (upto_sentinel (filter (fun m : str => truthy m) lines)).
Proof.
  intros Henc Hlen. apply Forall_upto_sentinel.
  induction lines as [|m lines IH]; [constructor|].
  apply Forall_cons_iff in Henc as [(p & Hp) Henc].
  apply Forall_cons_iff in Hlen as [Hm Hlen].
  rewrite filter_truthy_cons. destruct (truthy m) eqn:Ht; [|now apply IH].
  constructor; [|now apply IH].
  split; [intros ->; discriminate Ht|].
  exists p. split; [exact Hp|]. now rewrite (payload_of_encoded m p Hp) in Hm.
Qed.

Lemma printable_said stdout lines :
  Forall (printable stdout) lines ->
  Forall (printable stdout)
    (upto_sentinel (filter (fun m : str => truthy m) lines)).
Proof.
  intro H. apply Forall_upto_sentinel.
  apply Forall_forall. intros m Hm. apply filter_In in Hm as [Hm _].
  revert m Hm. now apply Forall_forall.
Qed.

(** On a UTF-8 console every line the client can encode is printable. *)
Lemma encodable_printable msg :
  encodable msg -> printable Runtime.utf_8_console msg.
Proof.
  intros (message & Henc). unfold str_encode, Client.FORMAT in Henc.
  destruct (utf8_encode msg) as [b|] eqn:E; [clear Henc|discriminate Henc].
  unfold printable. revert b E.
  induction msg as [|c msg IH]; intros b E; [reflexivity|].
  cbn [utf8_encode] in E. cbn [forallb]. unfold Runtime.utf_8_console at 1.
  destruct (utf8_char c) as [bc|]; [|discriminate E].
  destruct (utf8_encode msg) as [bs|]; [|discriminate E].
  cbn [andb]. now apply (IH bs).
Qed.

End EndToEnd.

(** X3.  End to end.  In a conversation where nothing fails on the client's
    side, let the handler's inbox hold what the client sent, in chunks that
    cut through none of the byte strings the client handed to [send], with
    the client's shutdown after them; let the handler's sends be accepted
    and the server's console be able to print the lines.  Then the handler
    returns normally; the messages it prints are exactly the non-empty
    lines the operator typed, in order, up to and including the first
    "!Disconnect"; and its connection is closed once. *)
Theorem X3_operator_lines_reach_the_log :
  forall (stdout : Runtime.charset) (lines : list str) (cw sw : world)
         (addr : address) (cs : list (list bytes)),
    Forall encodable lines ->
    Forall (fun m => len (payload_of m)
                     <= PY_SSIZE_T_MAX - Runtime.PyBytesObject_SIZE) lines ->
    Forall (printable stdout) lines ->
    all_accepted (outcomes cw) ->
    readable (inbox cw) ->
    sends (trace (snd (Client.main (map Client.Line lines) cw)))
    = sends (trace cw) ++ concat cs ->
    inbox sw = chunked cs ->
    all_accepted (outcomes sw) ->
    exists sw' evs,
      Runtime.handle_client stdout addr sw = Some (Ok tt, sw')
      /\ trace sw' = trace sw ++ evs
      /\ logged evs = upto_sentinel (filter (fun m : str => truthy m) lines)
      /\ closes evs = 1%nat.
Proof.
  intros stdout lines cw sw addr cs Henc Hlen Hout Hacc Hread Hsent Hin Hsacc.
  destruct (main_healthy lines cw Henc Hacc Hread) as (_ & Hs & _ & _).
  rewrite Hs in Hsent. apply app_inv_head in Hsent.
  destruct (handle_client_stream stdout addr _ cs sw
              (sendable_said lines Henc Hlen)
              (printable_said stdout lines Hout)
              Hin (eq_sym Hsent) Hsacc)
    as (sw' & evs & Hrun & Ht & Hevs & Hlog).
  exists sw', evs. repeat split; try assumption.
  - now rewrite Hlog, upto_sentinel_idempotent.
  - subst evs. cbn [closes]. rewrite !closes_app.
    assert (Hp : forall l, closes (flat_map (pass_events addr) l) = O).
    { induction l as [|m l IH]; [reflexivity|].
      cbn [flat_map]. rewrite closes_app, IH. reflexivity. }
    rewrite Hp. destruct (has_sentinel _); reflexivity.
Qed.

(** The operator types "hello" with an e-acute, an empty line and the
    sentinel; the frames reach the handler one byte string per chunk; the
    server's console is UTF-8. *)
Lemma X3_operator_lines_reach_the_log_witness :
  let hello := [104; 233; 108; 108; 111] in
  let lines := [hello; []; Client.MSG_DISCONNECT] in
  let cs := [[wire_header 6 63]; [[104; 195; 169; 108; 108; 111]];
             [wire_header 11 62]; [Client.MSG_DISCONNECT]] in
  exists sw' evs,
    Runtime.handle_client Runtime.utf_8_console (lit "10.0.0.7", 40000)
      (mkWorld (chunked cs) [] [])
    = Some (Ok tt, sw')
    /\ trace sw' = evs
    /\ logged evs = [hello; Client.MSG_DISCONNECT]
    /\ closes evs = 1%nat.
Proof.
  intros hello lines cs.
  apply (X3_operator_lines_reach_the_log Runtime.utf_8_console lines
           (mkWorld [Data (lit "Message received")] [] [])
           (mkWorld (chunked cs) [] []) (lit "10.0.0.7", 40000) cs).
  - repeat constructor; eexists; reflexivity.
  - repeat constructor; vm_compute; discriminate.
  - repeat constructor.
  - constructor.
  - repeat constructor. eexists. split; [reflexivity|].
    split; [cbn; lia | discriminate].
  - vm_compute. reflexivity.
  - reflexivity.
  - constructor.
Defined.


(* ================================================================== *)
(** * The handler at the edges of the protocol *)
(* ================================================================== *)

Section Edges.

Lemma deliver_zero i payload :
  fst (deliver 0 i) = Ok payload -> payload = [].
Proof.
  unfold deliver.
  change ((0 <? - PY_SSIZE_T_MAX - 1) || (PY_SSIZE_T_MAX <? 0)) with false.
  change (0 <? 0) with false. cbv beta iota.
  destruct i as [|[b|f] rest]; cbn [fst]; intro H;
    [now injection H | | discriminate H].
  change (Z.to_nat 0) with O in H. cbn [firstn] in H. now injection H.
Qed.

Lemma deliver_too_large n i :
  PY_SSIZE_T_MAX < n -> deliver n i = (Raise OverflowError, i).
Proof.
  intro H. unfold deliver.
  destruct (Z.ltb_spec n (- PY_SSIZE_T_MAX - 1)); [reflexivity|].
  destruct (Z.ltb_spec PY_SSIZE_T_MAX n); [reflexivity|lia].
Qed.

End Edges.

Section RuntimeAgrees.

(** On a console that can print every message, and when the size the
    header asks for is not one of the 33 that fit a ssize_t but not a
    bytes object, a pass of [Runtime] is the pass of [Server]. *)
Lemma runtime_iteration_agrees stdout addr w :
  (forall c, stdout c = true) ->
  (forall header n,
      fst (deliver Server.HEADER (inbox w)) = Ok header ->
      decode_header header = Ok n ->
      n <= PY_SSIZE_T_MAX - Runtime.PyBytesObject_SIZE \/ PY_SSIZE_T_MAX < n) ->
  Runtime.iteration stdout addr w = Server.iteration addr w.
Proof.
  intros Hall Hsize.
  unfold Runtime.iteration, Server.iteration, try_except,
    Runtime.try_block, Server.try_block, bind, lift.
  rewrite runtime_recv_eq, recv_eq, runtime_deliver_header.
  destruct (fst (deliver Server.HEADER (inbox w))) as [header|e] eqn:Hh;
    [|reflexivity].
  specialize (Hsize header). unfold decode_header in Hsize.
  destruct (bytes_decode header Server.FORMAT) as [h|e]; [|reflexivity].
  destruct (negb (truthy h)); [reflexivity|].
  destruct (int h) as [n|e]; [|reflexivity].
  rewrite runtime_recv_eq, recv_eq. cbn [inbox outcomes trace].
  assert (Hd : forall i, Runtime.deliver n i = deliver n i).
  { intro i. destruct (Hsize n eq_refl eq_refl) as [Hs|Hs].
    - now apply runtime_deliver_small.
    - rewrite deliver_too_large by assumption. unfold Runtime.deliver.
      destruct (Z.ltb_spec (PY_SSIZE_T_MAX - Runtime.PyBytesObject_SIZE) n);
        [reflexivity|unfold Runtime.PyBytesObject_SIZE in *; lia]. }
  rewrite Hd.
  destruct (fst (deliver n _)) as [payload|e]; [|reflexivity].
  destruct (bytes_decode payload Server.FORMAT) as [msg|e]; [|reflexivity].
  unfold Runtime.print_message.
  replace (forallb stdout msg) with true; [reflexivity|].
  symmetry. apply forallb_forall. intros c _. apply Hall.
Qed.

End RuntimeAgrees.

(** X4.  A header that announces zero bytes is a frame of its own.  When
    the header read returns a header that decodes to 0 and the payload read
    does not fail, that read asks for no byte and returns none; the
    handler prints the empty message and sends the acknowledgment, and it
    stays connected when the acknowledgment is accepted. *)
Theorem X4_empty_frame_acknowledged :
  forall (addr : address) (w : world) (header payload : bytes),
    fst (deliver Server.HEADER (inbox w)) = Ok header ->
    decode_header header = Ok 0 ->
    fst (deliver 0 (snd (deliver Server.HEADER (inbox w)))) = Ok payload ->
    let ack := lit "Message received" in
    let r := fst (accept ack (outcomes w)) in
    payload = []
    /\ exists connected w',
        Server.iteration addr w = (Ok connected, w')
        /\ trace w'
           = trace w ++ [ERecv Server.HEADER (Ok header);
                         ERecv 0 (Ok []);
                         EPrint (Received addr []);
                         ESend ack r]
                     ++ match r with
                        | Ok _ => []
                        | Raise e => [EPrint (error_line addr e)]
                        end
        /\ (forall k, r = Ok k -> connected = true).
Proof.
  intros addr w header payload Hh Hz Hp ack r.
  pose proof (deliver_zero _ _ Hp) as ->.
  split; [reflexivity|].
  apply decode_header_inv in Hz as (h & Hd & Hs & Hi).
  pose proof (iteration_frame addr w header [] h [] 0 Hh Hd Hs Hi Hp
                (bytes_decode_nil Server.FORMAT)) as Hit.
  cbv zeta in Hit. fold ack r in Hit.
  do 2 eexists. split; [exact Hit|]. split; [reflexivity|].
  intros k Hk. rewrite Hk. reflexivity.
Qed.

(** The header "0", with the next frame already waiting. *)
Lemma X4_empty_frame_acknowledged_witness :
  let addr := (lit "10.0.0.7", 40000) in
  let w := mkWorld [Data (wire_header 0 63 ++ wire_header 2 63 ++ lit "hi")]
             [] [] in
  exists connected w',
    Server.iteration addr w = (Ok connected, w')
    /\ trace w'
       = [ERecv 64 (Ok (wire_header 0 63)); ERecv 0 (Ok []);
          EPrint (Received addr []);
          ESend (lit "Message received") (Ok 16)]
    /\ (forall k, Ok 16 = Ok k -> connected = true).
Proof.
  intros addr w.
  exact (proj2 (X4_empty_frame_acknowledged addr w (wire_header 0 63) []
                  eq_refl eq_refl eq_refl)).
Defined.

(** X5.  A length that no buffer can have.  When the header decodes to a
    length above the largest ssize_t, [recv] raises OverflowError before
    reading anything: the pass prints the unexpected-error line (not the
    invalid-header one), sends no acknowledgment, takes nothing more from
    the inbox, and leaves [connected] false. *)
Theorem X5_length_beyond_ssize_t :
  forall (addr : address) (w : world) (header : bytes) (n : Z),
    fst (deliver Server.HEADER (inbox w)) = Ok header ->
    decode_header header = Ok n ->
    PY_SSIZE_T_MAX < n ->
    Server.iteration addr w
    = (Ok false,
       mkWorld (snd (deliver Server.HEADER (inbox w))) (outcomes w)
         (trace w ++ [ERecv Server.HEADER (Ok header);
                      ERecv n (Raise OverflowError);
                      EPrint (UnexpectedError addr OverflowError)])).
Proof.
  intros addr w header n Hh Hn Hbig.
  apply decode_header_inv in Hn as (h & Hd & Hs & Hi).
  destruct (iteration_after_header addr w header h n Hh Hd Hs Hi) as [Hraise _].
  cbv zeta in Hraise. cbn [inbox] in Hraise.
  rewrite (Hraise OverflowError) by now rewrite deliver_too_large.
  rewrite deliver_too_large by assumption.
  unfold log. cbn [fst snd inbox outcomes trace error_line
                   is_ConnectionResetError is_ValueError].
  now rewrite <- !app_assoc.
Qed.

(** A header that writes 2^63. *)
Lemma X5_length_beyond_ssize_t_witness :
  let addr := (lit "10.0.0.7", 40000) in
  let header := wire_header (2 ^ 63) 45 in
  Server.iteration addr (mkWorld [Data (header ++ lit "data")] [] [])
  = (Ok false,
     mkWorld [Data (lit "data")] []
       [ERecv 64 (Ok header);
        ERecv (2 ^ 63) (Raise OverflowError);
        EPrint (UnexpectedError addr OverflowError)]).
Proof.
  intros addr header.
  exact (X5_length_beyond_ssize_t addr
           (mkWorld [Data (header ++ lit "data")] [] []) header (2 ^ 63)
           eq_refl eq_refl eq_refl).
Defined.

(** X6.  A payload that is not UTF-8 is reported as an invalid header.
    When the header decodes and the payload read returns bytes that do not
    decode (a wrong byte, or a character cut in two by a short read), the
    pass prints the invalid-header line right after the two reads: the
    message is not printed, no acknowledgment is sent, and [connected] is
    left false. *)
Theorem X6_undecodable_payload :
  forall (addr : address) (w : world) (header payload : bytes) (n : Z),
    fst (deliver Server.HEADER (inbox w)) = Ok header ->
    decode_header header = Ok n ->
    fst (deliver n (snd (deliver Server.HEADER (inbox w)))) = Ok payload ->
    utf8_decode payload = None ->
    Server.iteration addr w
    = (Ok false,
       mkWorld (snd (deliver n (snd (deliver Server.HEADER (inbox w)))))
         (outcomes w)
         (trace w ++ [ERecv Server.HEADER (Ok header);
                      ERecv n (Ok payload);
                      EPrint (ErrorInvalidHeader addr)])).
Proof.
  intros addr w header payload n Hh Hn Hp Hbad.
  apply decode_header_inv in Hn as (h & Hd & Hs & Hi).
  unfold Server.iteration, try_except, Server.try_block, bind, lift.
  rewrite recv_eq, Hh, Hd, Hs. cbn [negb]. rewrite Hi, recv_eq.
  cbn [inbox outcomes trace]. rewrite Hp.
  unfold bytes_decode at 1. unfold Server.FORMAT at 1. rewrite Hbad.
  unfold Server.except_clauses, print, bind, ret, log.
  cbn [is_ConnectionResetError is_ValueError inbox outcomes trace].
  now rewrite <- !app_assoc.
Qed.

(** The two bytes of an e-acute, the second one late. *)
Lemma X6_undecodable_payload_witness :
  let addr := (lit "10.0.0.7", 40000) in
  let header := wire_header 2 63 in
  Server.iteration addr (mkWorld [Data (header ++ [195]); Data [169]] [] [])
  = (Ok false,
     mkWorld [Data [169]] []
       [ERecv 64 (Ok header); ERecv 2 (Ok [195]);
        EPrint (ErrorInvalidHeader addr)]).
Proof.
  intros addr header.
  exact (X6_undecodable_payload addr
           (mkWorld [Data (header ++ [195]); Data [169]] [] [])
           header [195] 2 eq_refl eq_refl eq_refl eq_refl).
Defined.

Section Acknowledgments.

Variable stdout : Runtime.charset.
Variable addr : address.

(** What holds of the events of every pass holds of the events of the
    loop, however it ends. *)
Lemma runtime_while_connected_acks :
  forall fuel w r w',
    Runtime.while_connected stdout fuel addr w = Some (r, w') ->
    exists evs, trace w' = trace w ++ evs /\ acks_match evs.
Proof.
  induction fuel as [|fuel IH]; intros w r w' H; [discriminate H|].
  cbn [Runtime.while_connected] in H.
  destruct (runtime_iteration_facts stdout addr w)
    as (b & w1 & evs & Hit & Ht & _ & Hp & _).
  rewrite Hit in H. destruct b.
  - destruct (IH _ _ _ H) as (evs' & Ht' & Hp').
    exists (evs ++ evs'). split; [now rewrite Ht', Ht, app_assoc|].
    now apply acks_match_app.
  - injection H as _ <-. now exists evs.
Qed.

End Acknowledgments.

(** X7.  The handler only ever acknowledges.  Whatever arrives on the
    connection, whatever the sends do and whatever the console can print:
    in every pass of the loop, and in every run of the handler that comes
    to its end, the byte strings handed to [send] are copies of
    "Message received", one for each message printed.  A payload is never
    echoed or forwarded, and nothing is sent for a message that was not
    printed. *)
Theorem X7_only_acknowledgments :
  forall (stdout : Runtime.charset) (addr : address) (w : world),
    (forall r w',
        Runtime.iteration stdout addr w = (r, w') ->
        exists evs,
          trace w' = trace w ++ evs
          /\ sends evs = map (fun _ => lit "Message received") (logged evs))
    /\ (forall r w',
           Runtime.handle_client stdout addr w = Some (r, w') ->
           exists evs,
             trace w' = trace w ++ evs
             /\ sends evs = map (fun _ => lit "Message received") (logged evs)).
Proof.
  intros stdout addr w. split; intros r w' Hrun.
  - destruct (runtime_iteration_facts stdout addr w)
      as (b & w1 & evs & Hit & Ht & _ & Hp & _).
    rewrite Hit in Hrun. injection Hrun as _ <-. now exists evs.
  - unfold Runtime.handle_client, print in Hrun. cbv beta iota zeta in Hrun.
    unfold Runtime.serve in Hrun.
    destruct (Runtime.while_connected stdout _ addr _)
      as [[[u|e] w1]|] eqn:Hloop; try discriminate Hrun.
    + destruct (runtime_while_connected_acks stdout addr _ _ _ _ Hloop)
        as (evs & Ht & Hp).
      unfold bind, print, close, log in Hrun. cbn [trace] in Hrun.
      injection Hrun as _ <-. cbn [trace]. rewrite Ht. unfold log. cbn [trace].
      exists (EPrint (NewConnection addr)
              :: evs ++ [EPrint (ClosingFor addr); EClose]).
      split; [now rewrite <- !app_assoc|].
      cbn [sends logged]. rewrite sends_app, logged_app. cbn [sends logged].
      rewrite !app_nil_r. exact Hp.
    + destruct (runtime_while_connected_acks stdout addr _ _ _ _ Hloop)
        as (evs & Ht & Hp).
      injection Hrun as _ <-. rewrite Ht. unfold log. cbn [trace].
      exists (EPrint (NewConnection addr) :: evs).
      split; [now rewrite <- !app_assoc|]. exact Hp.
Qed.

(** A frame that is printed and acknowledged, then a frame whose message
    the console cannot print: one acknowledgment for the one message
    printed. *)
Lemma X7_only_acknowledgments_witness :
  let addr := (lit "10.0.0.7", 40000) in
  let w := mkWorld [Data (wire_header 5 63 ++ lit "hello");
                    Data (wire_header 2 63 ++ [195; 169])] [] [] in
  let w' := mkWorld [] []
              [EPrint (NewConnection addr);
               ERecv 64 (Ok (wire_header 5 63)); ERecv 5 (Ok (lit "hello"));
               EPrint (Received addr (lit "hello"));
               ESend (lit "Message received") (Ok 16);
               ERecv 64 (Ok (wire_header 2 63)); ERecv 2 (Ok [195; 169]);
               EPrint (ErrorInvalidHeader addr);
               EPrint (ClosingFor addr); EClose] in
  exists evs,
    trace w' = trace w ++ evs
    /\ sends evs = map (fun _ => lit "Message received") (logged evs).
Proof.
  intros addr w w'.
  exact (proj2 (X7_only_acknowledgments Runtime.ascii_console addr w)
           (Ok tt) w' eq_refl).
Defined.


(* ================================================================== *)
(** * The client's [send] when the connection fails *)
(* ================================================================== *)

Section LostConnection.

Lemma lost_clause e w :
  (if is_ConnectionResetError e || is_BrokenPipeError e
   then bind (print ErrorLost) (fun _ => ret false)
   else raise e) w
  = if is_ConnectionResetError e || is_BrokenPipeError e
    then (Ok false, log (EPrint ErrorLost) w)
    else (Raise e, w).
Proof. destruct (_ || _); reflexivity. Qed.

Lemma lost_kinds e :
  is_ConnectionResetError e || is_BrokenPipeError e = true ->
  e = ConnectionResetError \/ e = BrokenPipeError.
Proof. destruct e; cbn; intro H; try discriminate H; auto. Qed.

(** What [send] does when one of its steps raises [e] in the world [w1],
    after the events [evs] and the failing call [call]. *)
Lemma lost_outcome e w w1 evs call :
  trace w1 = trace w ++ evs ++ [call] ->
  raised call e ->
  let r := if is_ConnectionResetError e || is_BrokenPipeError e
           then (Ok false, log (EPrint ErrorLost) w1)
           else (@Raise bool e, w1) in
  (forall e', fst r = Raise e' ->
              is_ConnectionResetError e' = false /\ is_BrokenPipeError e' = false)
  /\ (fst r = Ok false ->
      exists evs' call' e',
        trace (snd r) = trace w ++ evs' ++ [call'; EPrint ErrorLost]
        /\ raised call' e'
        /\ (e' = ConnectionResetError \/ e' = BrokenPipeError)).
Proof.
  intros Ht Hr. cbv zeta.
  destruct (is_ConnectionResetError e || is_BrokenPipeError e) eqn:Hc;
    cbn [fst snd].
  - split; [intros e' H; discriminate H|]. intros _.
    exists evs, call, e. split; [|split; [exact Hr|now apply lost_kinds]].
    unfold log. cbn [trace]. rewrite Ht, <- !app_assoc. reflexivity.
  - split; [|intro H; discriminate H].
    intros e' H. injection H as <-. now apply orb_false_elim.
Qed.

End LostConnection.

(** X8.  [send] and a lost connection.  Whatever the message and the
    network: [send] never lets a ConnectionResetError or a BrokenPipeError
    out, and when it returns False, the last thing it did on the socket is a
    call that raised one of these two, followed only by the lost-connection
    line; the steps after the failing call are skipped. *)
Theorem X8_lost_connection_reported :
  forall (msg : str) (w : world),
    (forall e, fst (Client.send msg w) = Raise e ->
               is_ConnectionResetError e = false
               /\ is_BrokenPipeError e = false)
    /\ (fst (Client.send msg w) = Ok false ->
        exists evs call e,
          trace (snd (Client.send msg w))
          = trace w ++ evs ++ [call; EPrint ErrorLost]
          /\ raised call e
          /\ (e = ConnectionResetError \/ e = BrokenPipeError)).
Proof.
  intros msg w.
  remember (Client.send msg w) as r eqn:Hr.
  unfold Client.send, try_except, bind, lift in Hr.
  destruct (str_encode msg Client.FORMAT) as [message|e0] eqn:Henc.
  2:{ apply str_encode_raise in Henc. subst e0. cbn in Hr. subst r.
      split; [intros e H; injection H as <-; auto | intro H; discriminate H]. }
  rewrite str_encode_str_int in Hr. fold (client_header message) in Hr.
  rewrite send_eq in Hr.
  destruct (fst (accept (client_header message) (outcomes w))) as [k1|e1].
  2:{ rewrite lost_clause in Hr. subst r.
      refine (lost_outcome e1 w _ []
                (ESend (client_header message) (Raise e1)) _ _);
        reflexivity. }
  rewrite send_eq in Hr. cbn [inbox outcomes trace] in Hr.
  destruct (fst (accept message _)) as [k2|e2].
  2:{ rewrite lost_clause in Hr. subst r.
      refine (lost_outcome e2 w _ [ESend (client_header message) (Ok k1)]
                (ESend message (Raise e2)) _ _);
        [cbn [trace]; now rewrite <- !app_assoc | reflexivity]. }
  rewrite recv_eq in Hr. cbn [inbox outcomes trace] in Hr.
  destruct (fst (deliver 2048 (inbox w))) as [response|e3].
  2:{ rewrite lost_clause in Hr. subst r.
      refine (lost_outcome e3 w _
                [ESend (client_header message) (Ok k1); ESend message (Ok k2)]
                (ERecv 2048 (Raise e3)) _ _);
        [cbn [trace]; now rewrite <- !app_assoc | reflexivity]. }
  destruct (bytes_decode response Client.FORMAT) as [text|e4] eqn:Hdec.
  - cbn in Hr. subst r.
    split; [intros e H; discriminate H | intro H; discriminate H].
  - apply bytes_decode_raise in Hdec. subst e4. cbn in Hr. subst r.
    split; [intros e H; injection H as <-; auto | intro H; discriminate H].
Qed.

(** The payload send meets a broken pipe. *)
Lemma X8_lost_connection_reported_witness :
  let w := mkWorld [] [Accepted; SendFault Pipe] [] in
  exists evs call e,
    trace (snd (Client.send (lit "hi") w))
    = evs ++ [call; EPrint ErrorLost]
    /\ raised call e
    /\ (e = ConnectionResetError \/ e = BrokenPipeError).
Proof.
  intro w.
  exact (proj2 (X8_lost_connection_reported (lit "hi") w) eq_refl).
Defined.

(** X9.  A server that has shut down goes unnoticed.  When both sends are
    accepted and the peer has shut down, so that the read returns no byte,
    [send] prints an empty acknowledgment and returns True: the orderly end
    of the connection is not told apart from a reply. *)
Theorem X9_server_shutdown_unnoticed :
  forall (msg : str) (message : bytes) (w : world),
    str_encode msg Client.FORMAT = Ok message ->
    accepting 2 (outcomes w) ->
    inbox w = [] ->
    Client.send msg w
    = (Ok true,
       mkWorld [] (tl (tl (outcomes w)))
         (trace w ++ [ESend (client_header message) (Ok (len (client_header message)));
                      ESend message (Ok (len message));
                      ERecv 2048 (Ok []);
                      EPrint (ServerSaid [])])).
Proof.
  intros msg message w Henc Hacc Hin.
  rewrite (client_send_success msg message [] [] w Henc Hacc).
  - now rewrite Hin.
  - now rewrite Hin.
  - reflexivity.
Qed.

(** "hi" sent to a server that is gone. *)
Lemma X9_server_shutdown_unnoticed_witness :
  Client.send (lit "hi") (mkWorld [] [] [])
  = (Ok true,
     mkWorld [] []
       [ESend (wire_header 2 63) (Ok 64); ESend (lit "hi") (Ok 2);
        ERecv 2048 (Ok []); EPrint (ServerSaid [])]).
Proof.
  exact (X9_server_shutdown_unnoticed (lit "hi") (lit "hi") (mkWorld [] [] [])
           eq_refl I eq_refl).
Defined.


(* ================================================================== *)
(** * The listener *)
(* ================================================================== *)

Section ListenerFacts.

Lemma listener_closes_app a b :
  Listener.closes (a ++ b) = (Listener.closes a + Listener.closes b)%nat.
Proof.
  induction a as [|e a IH]; [reflexivity|].
  destruct e; cbn [app Listener.closes]; now rewrite ?IH.
Qed.

Lemma listener_threads_app a b :
  Listener.threads (a ++ b) = Listener.threads a ++ Listener.threads b.
Proof.
  induction a as [|e a IH]; [reflexivity|].
  destruct e; cbn [app Listener.threads]; now rewrite ?IH.
Qed.

(** The accept loop closes nothing and starts one thread per connection. *)
Lemma accept_loop_facts backlog :
  forall t,
    Listener.closes (snd (Listener.accept_loop backlog t)) = Listener.closes t
    /\ Listener.threads (snd (Listener.accept_loop backlog t))
       = Listener.threads t
         ++ map (fun c => (snd c, Server.handle_client (snd c) (fst c)))
                (Listener.connections backlog).
Proof.
  induction backlog as [|[conn addr n|e] rest IH]; intro t.
  - cbn. now rewrite app_nil_r.
  - cbn [Listener.accept_loop Listener.connections map fst snd].
    destruct (IH (t ++ [Listener.EAccept (Ok addr);
                        Listener.EThread addr (Server.handle_client addr conn);
                        Listener.EPrint (Listener.ActiveConnections (n - 1))]))
      as [Hc Ht].
    rewrite Hc, Ht, listener_closes_app, listener_threads_app.
    cbn [Listener.closes Listener.threads]. rewrite <- app_assoc.
    split; [lia|reflexivity].
  - cbn. rewrite listener_closes_app, listener_threads_app. cbn.
    rewrite !app_nil_r. split; [lia|reflexivity].
Qed.

End ListenerFacts.

(** X10.  The listening socket is released when the listener stops.
    Whatever [listen] and [accept] do: as long as [start] waits in
    [accept] the listening socket is not closed; when an exception ends the
    loop the socket is closed exactly once and the shutdown line is the
    last thing printed; [start] then returns, unless the exception is
    outside [Exception] (an interrupt), which leaves [start] after the
    cleanup.  A failing [bind] is outside all this: it ends the script
    before anything is printed, and nothing is closed. *)
Theorem X10_listener_cleanup :
  forall (bind listen : result unit) (backlog : list Listener.accept_event),
    match bind with
    | Raise e =>
        Listener.script bind listen backlog
        = (Listener.Propagated e, [Listener.EBind (Raise e)])
    | Ok _ =>
        let t := snd (Listener.script bind listen backlog) in
        match fst (Listener.script bind listen backlog) with
        | Listener.Waiting => Listener.closes t = O
        | Listener.Returned =>
            Listener.closes t = 1%nat
            /\ exists pre,
                t = pre ++ [Listener.EClose; Listener.EPrint Listener.Shutdown]
        | Listener.Propagated e =>
            Listener.closes t = 1%nat
            /\ (exists pre,
                   t = pre ++ [Listener.EClose; Listener.EPrint Listener.Shutdown])
            /\ is_Exception e = false
        end
    end.
Proof.
  intros [u|e] listen backlog; [|reflexivity].
  cbn [Listener.script]. unfold Listener.start.
  set (t0 := [Listener.EBind (Ok tt); Listener.EPrint Listener.Starting]).
  assert (H0 : Listener.closes t0 = O) by reflexivity.
  assert (Hleft : exists left_by t1,
             match listen with
             | Ok _ => Listener.accept_loop backlog
                         (t0 ++ [Listener.EListen (Ok tt);
                                 Listener.EPrint Listener.Listening])
             | Raise e => (Some e, t0 ++ [Listener.EListen (Raise e)])
             end = (left_by, t1)
             /\ Listener.closes t1 = O).
  { destruct listen as [u'|e].
    - destruct (accept_loop_facts backlog
                  (t0 ++ [Listener.EListen (Ok tt);
                          Listener.EPrint Listener.Listening])) as [Hc _].
      destruct (Listener.accept_loop backlog _) as [l t1]. cbn [snd] in Hc.
      exists l, t1. split; [reflexivity|]. rewrite Hc. reflexivity.
    - do 2 eexists. split; reflexivity. }
  destruct Hleft as (left_by & t1 & -> & Hc1).
  destruct left_by as [e|]; cbn [fst snd]; [|exact Hc1].
  destruct (Listener.is_OSError e) eqn:Hos; cbn [fst snd].
  - split; [|eexists; reflexivity].
    rewrite !listener_closes_app, Hc1. reflexivity.
  - destruct (is_Exception e) eqn:Hex; cbn [fst snd].
    + split; [|eexists; reflexivity].
      rewrite !listener_closes_app, Hc1. reflexivity.
    + split; [|split; [eexists; reflexivity|exact Hex]].
      rewrite listener_closes_app, Hc1. reflexivity.
Qed.

Section ListenerRounds.

(** The accept loop over connections: one round for each. *)
Lemma accept_loop_rounds served :
  forall rest t,
    Listener.accept_loop
      (map (fun c => Listener.Connection (fst (fst c)) (snd (fst c)) (snd c))
           served ++ rest) t
    = Listener.accept_loop rest
        (t ++ flat_map
                (fun c =>
                   [Listener.EAccept (Ok (snd (fst c)));
                    Listener.EThread (snd (fst c))
                      (Server.handle_client (snd (fst c)) (fst (fst c)));
                    Listener.EPrint (Listener.ActiveConnections (snd c - 1))])
                served).
Proof.
  induction served as [|[[conn addr] n] served IH]; intros rest t.
  - cbn. now rewrite app_nil_r.
  - cbn [map app flat_map fst snd Listener.accept_loop].
    rewrite IH, <- app_assoc. reflexivity.
Qed.

End ListenerRounds.

(** X11.  One handler per accepted connection, until [accept] raises.
    After a successful [listen], [start] does one round for each
    connection [accept] hands out, in order: it accepts, starts a thread
    on [handle_client] with that connection and its address, and prints
    the count of connections.  When no call of [accept] raises it goes on
    waiting in [accept].  The first exception from [accept], an OSError
    included, ends the accepting for good: [start] leaves the loop, and
    what it does afterwards starts no thread, so the connections that come
    later are never served. *)
Theorem X11_one_handler_per_connection :
  forall (served : list (world * address * Z)) (e : exn)
         (later : list Listener.accept_event) (t : list Listener.event),
    let backlog :=
      map (fun c => Listener.Connection (fst (fst c)) (snd (fst c)) (snd c))
          served in
    let rounds :=
      flat_map
        (fun c =>
           [Listener.EAccept (Ok (snd (fst c)));
            Listener.EThread (snd (fst c))
              (Server.handle_client (snd (fst c)) (fst (fst c)));
            Listener.EPrint (Listener.ActiveConnections (snd c - 1))])
        served in
    let listening :=
      t ++ [Listener.EListen (Ok tt); Listener.EPrint Listener.Listening]
        ++ rounds in
    Listener.start (Ok tt) backlog t = (Listener.Waiting, listening)
    /\ exists after,
        Listener.start (Ok tt) (backlog ++ Listener.AcceptRaises e :: later) t
        = (if is_Exception e then Listener.Returned else Listener.Propagated e,
           listening ++ Listener.EAccept (Raise e) :: after)
        /\ Listener.threads after = [].
Proof.
  intros served e later t backlog rounds listening.
  unfold Listener.start. split.
  - replace backlog with (backlog ++ []) by apply app_nil_r.
    unfold backlog. rewrite accept_loop_rounds. cbn [Listener.accept_loop].
    unfold listening, rounds. now rewrite <- app_assoc.
  - unfold backlog. rewrite accept_loop_rounds. cbn [Listener.accept_loop].
    fold rounds.
    replace ((t ++ [Listener.EListen (Ok tt);
                    Listener.EPrint Listener.Listening]) ++ rounds)
      with listening by (unfold listening; now rewrite <- app_assoc).
    destruct e; cbn [Listener.is_OSError is_Exception];
      eexists; (split; [rewrite <- !app_assoc; cbn [app]; reflexivity
                       | reflexivity]).
Qed.
